(** * React To-do List App: the task list, its view and its persistence

    A shallow embedding of [src/app.js] (a single React component,
    [TodoApp], and the hook [useLocalStorage]) together with the properties
    of the task list state machine, of the filtered view and of the
    persistence round trip.

    Layout: the platform ([String.prototype] methods, [JSON], Web Storage),
    then the hook and the component, then the theorems. *)

From stdpp Require Import base gmap list strings.
From Stdlib Require Import ZArith NArith Lia.
From Stdlib Require Import DecimalFacts DecimalPos DecimalN Sorted.

Local Open Scope N_scope.

(* ================================================================== *)
(** * JavaScript strings *)
(* ================================================================== *)

(** A JavaScript string is a sequence of UTF-16 code units. *)
Abbreviation jsstring := (list N).

(** An ASCII literal of the source as a sequence of code units. *)
Definition lit (s : string) : jsstring :=
  List.map Ascii.N_of_ascii (String.list_ascii_of_string s).

(** [a === b] on strings. *)
Fixpoint str_eqb (a b : jsstring) : bool :=
  match a, b with
  | [], [] => true
  | x :: a', y :: b' => (x =? y) && str_eqb a' b'
  | _, _ => false
  end.

(** [!s] on a string: only the empty string is falsy. *)
Definition falsy (s : jsstring) : bool :=
  match s with
  | [] => true
  | _ :: _ => false
  end.

(** White space and line terminators, the code units that
    [String.prototype.trim] strips (ECMA-262, WhiteSpace and
    LineTerminator). *)
Definition isWhiteSpace (c : N) : bool :=
  (c =? 0x9) || (c =? 0xA) || (c =? 0xB) || (c =? 0xC) || (c =? 0xD)
  || (c =? 0x20) || (c =? 0xA0) || (c =? 0x1680)
  || ((0x2000 <=? c) && (c <=? 0x200A))
  || (c =? 0x2028) || (c =? 0x2029) || (c =? 0x202F) || (c =? 0x205F)
  || (c =? 0x3000) || (c =? 0xFEFF).

Fixpoint trimStart (s : jsstring) : jsstring :=
  match s with
  | [] => []
  | c :: s' => if isWhiteSpace c then trimStart s' else s
  end.

Fixpoint trimEnd (s : jsstring) : jsstring :=
  match s with
  | [] => []
  | c :: s' =>
      match trimEnd s' with
      | [] => if isWhiteSpace c then [] else [c]
      | r => c :: r
      end
  end.

(** [s.trim()] *)
Definition trim (s : jsstring) : jsstring := trimEnd (trimStart s).

Fixpoint startsWith (s p : jsstring) {struct p} : bool :=
  match p, s with
  | [], _ => true
  | _ :: _, [] => false
  | x :: p', y :: s' => (x =? y) && startsWith s' p'
  end.

(** [s.includes(p)]: [p] occurs in [s] at some index. *)
Fixpoint includes (s p : jsstring) : bool :=
  startsWith s p
  || match s with
     | [] => false
     | _ :: s' => includes s' p
     end.

(** [String.prototype.toLowerCase] is the engine's Unicode case mapping;
    the component is embedded with the mapping as a parameter.  On ASCII
    input the mapping is the following one, which the examples use. *)
Definition toLowerCase_ascii (s : jsstring) : jsstring :=
  List.map (fun c => if (0x41 <=? c) && (c <=? 0x5A) then c + 0x20 else c) s.

(** ** Decimal digits of an integral Number *)

Fixpoint uint_chars (u : Decimal.uint) : jsstring :=
  match u with
  | Decimal.Nil => []
  | Decimal.D0 u' => 48 :: uint_chars u'
  | Decimal.D1 u' => 49 :: uint_chars u'
  | Decimal.D2 u' => 50 :: uint_chars u'
  | Decimal.D3 u' => 51 :: uint_chars u'
  | Decimal.D4 u' => 52 :: uint_chars u'
  | Decimal.D5 u' => 53 :: uint_chars u'
  | Decimal.D6 u' => 54 :: uint_chars u'
  | Decimal.D7 u' => 55 :: uint_chars u'
  | Decimal.D8 u' => 56 :: uint_chars u'
  | Decimal.D9 u' => 57 :: uint_chars u'
  end.

(** [Number.prototype.toString] on an integral Number: the digits, after a
    minus sign for a negative one.  (The engine switches to exponent
    notation from 1e21 on; time values stay far below.) *)
Definition Number_toString (z : Z) : jsstring :=
  match z with
  | Z0 => uint_chars (N.to_uint 0)
  | Zpos p => uint_chars (N.to_uint (Npos p))
  | Zneg p => 45 :: uint_chars (N.to_uint (Npos p))
  end.

(* ================================================================== *)
(** * JSON *)
(* ================================================================== *)

(** The values [JSON.parse] produces.  A number written without fraction
    and exponent is kept as its integer; any other number is kept as its
    literal, its floating-point value is outside this development.  An
    object is its members as written. *)
#[warnings="-register-all"]
Inductive json :=
| JNull
| JBool (b : bool)
| JNum (z : Z)
| JReal (l : jsstring)
| JStr (s : jsstring)
| JArr (l : list json)
| JObj (l : list (jsstring * json)).

(** Normal or abrupt completion of a platform call. *)
Inductive completion (A : Type) :=
| Normal (a : A)
| Throw.
Arguments Normal {A} a.
Arguments Throw {A}.

Definition bind {A B} (c : completion A) (k : A -> completion B)
  : completion B :=
  match c with
  | Normal a => k a
  | Throw => Throw
  end.

(** [try { body } catch { handler }] *)
Definition try_catch {A} (body handler : completion A) : completion A :=
  match body with
  | Normal a => Normal a
  | Throw => handler
  end.

(** ** [JSON.stringify] *)

Definition hex_digit (n : N) : N := if n <? 10 then 48 + n else 87 + n.

(** The escape [\uXXXX] with lower-case digits. *)
Definition UnicodeEscape (c : N) : jsstring :=
  [92; 117; hex_digit (c / 4096 mod 16); hex_digit (c / 256 mod 16);
   hex_digit (c / 16 mod 16); hex_digit (c mod 16)].

Definition isLeadingSurrogate (c : N) : bool := (0xD800 <=? c) && (c <=? 0xDBFF).
Definition isTrailingSurrogate (c : N) : bool := (0xDC00 <=? c) && (c <=? 0xDFFF).

(** One code unit that is not a surrogate, as QuoteJSONString writes it. *)
Definition quote_unit (c : N) : jsstring :=
  if c =? 8 then [92; 98]
  else if c =? 9 then [92; 116]
  else if c =? 10 then [92; 110]
  else if c =? 12 then [92; 102]
  else if c =? 13 then [92; 114]
  else if c =? 34 then [92; 34]
  else if c =? 92 then [92; 92]
  else if c <? 32 then UnicodeEscape c
  else [c].

(** A surrogate pair is written as it is, a lone surrogate is escaped. *)
Fixpoint quote_units (s : jsstring) : jsstring :=
  match s with
  | [] => []
  | c :: s' =>
      if isLeadingSurrogate c then
        match s' with
        | d :: s'' =>
            if isTrailingSurrogate d then c :: d :: quote_units s''
            else UnicodeEscape c ++ quote_units s'
        | [] => UnicodeEscape c
        end
      else if isTrailingSurrogate c then UnicodeEscape c ++ quote_units s'
      else quote_unit c ++ quote_units s'
  end.

Definition QuoteJSONString (s : jsstring) : jsstring :=
  34 :: quote_units s ++ [34].

Fixpoint join_comma (l : list jsstring) : jsstring :=
  match l with
  | [] => []
  | [x] => x
  | x :: l' => x ++ 44 :: join_comma l'
  end.

Fixpoint JSON_stringify (v : json) : jsstring :=
  match v with
  | JNull => lit "null"
  | JBool true => lit "true"
  | JBool false => lit "false"
  | JNum z => Number_toString z
  | JReal l => l
  | JStr s => QuoteJSONString s
  | JArr l => 91 :: join_comma (List.map JSON_stringify l) ++ [93]
  | JObj l =>
      123 :: join_comma
               (List.map
                  (fun kv => QuoteJSONString (fst kv) ++ 58 :: JSON_stringify (snd kv))
                  l)
          ++ [125]
  end.

(** ** [JSON.parse] *)

Definition isJSONWhiteSpace (c : N) : bool :=
  (c =? 9) || (c =? 10) || (c =? 13) || (c =? 32).

Fixpoint skip_ws (s : jsstring) : jsstring :=
  match s with
  | [] => []
  | c :: s' => if isJSONWhiteSpace c then skip_ws s' else s
  end.

Definition hex_value (c : N) : option N :=
  if (48 <=? c) && (c <=? 57) then Some (c - 48)
  else if (97 <=? c) && (c <=? 102) then Some (c - 87)
  else if (65 <=? c) && (c <=? 70) then Some (c - 55)
  else None.

Definition hex4 (a b c d : N) : option N :=
  match hex_value a, hex_value b, hex_value c, hex_value d with
  | Some x, Some y, Some z, Some w => Some (((x * 16 + y) * 16 + z) * 16 + w)
  | _, _, _, _ => None
  end.

(** The character after a backslash, [u] apart. *)
Definition unescape (e : N) : option N :=
  if e =? 34 then Some 34
  else if e =? 92 then Some 92
  else if e =? 47 then Some 47
  else if e =? 98 then Some 8
  else if e =? 102 then Some 12
  else if e =? 110 then Some 10
  else if e =? 114 then Some 13
  else if e =? 116 then Some 9
  else None.

(** The characters of a string after its opening quote, up to and with the
    closing quote: the string and the rest of the input. *)
Fixpoint parse_chars (s : jsstring) : option (jsstring * jsstring) :=
  match s with
  | [] => None
  | c :: s1 =>
      if c =? 34 then Some ([], s1)
      else if c =? 92 then
        match s1 with
        | [] => None
        | e :: s2 =>
            if e =? 117 then
              match s2 with
              | h1 :: h2 :: h3 :: h4 :: s3 =>
                  match hex4 h1 h2 h3 h4 with
                  | Some u =>
                      match parse_chars s3 with
                      | Some (r, rest) => Some (u :: r, rest)
                      | None => None
                      end
                  | None => None
                  end
              | _ => None
              end
            else
              match unescape e with
              | Some u =>
                  match parse_chars s2 with
                  | Some (r, rest) => Some (u :: r, rest)
                  | None => None
                  end
              | None => None
              end
        end
      else if c <? 32 then None
      else
        match parse_chars s1 with
        | Some (r, rest) => Some (c :: r, rest)
        | None => None
        end
  end.

Definition isDigit (c : N) : bool := (48 <=? c) && (c <=? 57).

(** The longest prefix of digits, and the rest. *)
Fixpoint span_digits (s : jsstring) : jsstring * jsstring :=
  match s with
  | [] => ([], [])
  | c :: s' =>
      if isDigit c then
        let (ds, r) := span_digits s' in (c :: ds, r)
      else ([], s)
  end.

Definition digit_uint (c : N) (u : Decimal.uint) : Decimal.uint :=
  if c =? 48 then Decimal.D0 u
  else if c =? 49 then Decimal.D1 u
  else if c =? 50 then Decimal.D2 u
  else if c =? 51 then Decimal.D3 u
  else if c =? 52 then Decimal.D4 u
  else if c =? 53 then Decimal.D5 u
  else if c =? 54 then Decimal.D6 u
  else if c =? 55 then Decimal.D7 u
  else if c =? 56 then Decimal.D8 u
  else Decimal.D9 u.

Fixpoint chars_uint (ds : jsstring) : Decimal.uint :=
  match ds with
  | [] => Decimal.Nil
  | c :: ds' => digit_uint c (chars_uint ds')
  end.

(** The integer part of a JSON number: [0], or digits with no leading [0]. *)
Definition int_ok (ds : jsstring) : bool :=
  match ds with
  | [] => false
  | c :: ds' => negb (c =? 48) || falsy ds'
  end.

(** An optional fraction: [None] when a dot is not followed by a digit. *)
Definition take_frac (s : jsstring) : option (jsstring * jsstring) :=
  match s with
  | c :: s' =>
      if c =? 46 then
        let (ds, r) := span_digits s' in
        if falsy ds then None else Some (c :: ds, r)
      else Some ([], s)
  | [] => Some ([], [])
  end.

(** An optional exponent: [None] when [e] or [E] is not followed by an
    optionally signed run of digits. *)
Definition take_exp (s : jsstring) : option (jsstring * jsstring) :=
  match s with
  | c :: s' =>
      if (c =? 101) || (c =? 69) then
        match s' with
        | g :: s'' =>
            if (g =? 43) || (g =? 45) then
              let (ds, r) := span_digits s'' in
              if falsy ds then None else Some (c :: g :: ds, r)
            else
              let (ds, r) := span_digits s' in
              if falsy ds then None else Some (c :: ds, r)
        | [] => None
        end
      else Some ([], s)
  | [] => Some ([], [])
  end.

(** What may follow a number: not a digit, a dot or an exponent mark. *)
Definition ends_number (rest : jsstring) : bool :=
  match rest with
  | [] => true
  | c :: _ =>
      negb (isDigit c) && negb (c =? 46) && negb (c =? 101) && negb (c =? 69)
  end.

(** The number that starts after an optional minus sign. *)
Definition parse_unsigned (neg : bool) (s : jsstring)
  : option (json * jsstring) :=
  let (ip, s2) := span_digits s in
  if int_ok ip then
    match take_frac s2 with
    | None => None
    | Some (fr, s3) =>
        match take_exp s3 with
        | None => None
        | Some (ex, s4) =>
            if falsy fr && falsy ex then
              let n := Z.of_N (N.of_uint (chars_uint ip)) in
              Some (JNum (if neg then Z.opp n else n), s4)
            else
              Some (JReal ((if neg then [45] else []) ++ ip ++ fr ++ ex), s4)
        end
    end
  else None.

Definition parse_number (s : jsstring) : option (json * jsstring) :=
  match s with
  | c :: s' => if c =? 45 then parse_unsigned true s' else parse_unsigned false s
  | [] => None
  end.

(** [s] without the prefix [p], when it starts with [p]. *)
Definition strip_prefix (p s : jsstring) : option jsstring :=
  if startsWith s p then Some (drop (length p) s) else None.

Inductive presult (A : Type) :=
| POk (v : A) (rest : jsstring)
| PSyntaxError
| POutOfFuel.
Arguments POk {A} v rest.
Arguments PSyntaxError {A}.
Arguments POutOfFuel {A}.

(** A result that is not out of fuel and that, when it is a value, left
    less input than it was given. *)
Definition consumes {A} (res : presult A) (s : jsstring) : Prop :=
  match res with
  | POk _ r => (length r < length s)%nat
  | PSyntaxError => True
  | POutOfFuel => False
  end.

(** Recursive descent over the JSON grammar.  [parse_value] reads one
    value, [parse_elements] the elements of an array after its bracket and
    [parse_members] the members of an object after its brace, both up to
    and with the closing character.  Every call spends one unit of fuel. *)
Fixpoint parse_value (fuel : nat) (s : jsstring) : presult json :=
  match fuel with
  | O => POutOfFuel
  | S fuel' =>
      match skip_ws s with
      | [] => PSyntaxError
      | c :: s1 =>
          if c =? 123 then
            match skip_ws s1 with
            | [] => PSyntaxError
            | d :: s2 =>
                if d =? 125 then POk (JObj []) s2
                else
                  match parse_members fuel' s1 with
                  | POk ms r => POk (JObj ms) r
                  | PSyntaxError => PSyntaxError
                  | POutOfFuel => POutOfFuel
                  end
            end
          else if c =? 91 then
            match skip_ws s1 with
            | [] => PSyntaxError
            | d :: s2 =>
                if d =? 93 then POk (JArr []) s2
                else
                  match parse_elements fuel' s1 with
                  | POk vs r => POk (JArr vs) r
                  | PSyntaxError => PSyntaxError
                  | POutOfFuel => POutOfFuel
                  end
            end
          else if c =? 34 then
            match parse_chars s1 with
            | Some (str, r) => POk (JStr str) r
            | None => PSyntaxError
            end
          else if c =? 116 then
            match strip_prefix (lit "true") (c :: s1) with
            | Some r => POk (JBool true) r
            | None => PSyntaxError
            end
          else if c =? 102 then
            match strip_prefix (lit "false") (c :: s1) with
            | Some r => POk (JBool false) r
            | None => PSyntaxError
            end
          else if c =? 110 then
            match strip_prefix (lit "null") (c :: s1) with
            | Some r => POk JNull r
            | None => PSyntaxError
            end
          else
            match parse_number (c :: s1) with
            | Some (v, r) => POk v r
            | None => PSyntaxError
            end
      end
  end
with parse_elements (fuel : nat) (s : jsstring) : presult (list json) :=
  match fuel with
  | O => POutOfFuel
  | S fuel' =>
      match parse_value fuel' s with
      | POk v s1 =>
          match skip_ws s1 with
          | [] => PSyntaxError
          | d :: s2 =>
              if d =? 44 then
                match parse_elements fuel' s2 with
                | POk vs r => POk (v :: vs) r
                | PSyntaxError => PSyntaxError
                | POutOfFuel => POutOfFuel
                end
              else if d =? 93 then POk [v] s2
              else PSyntaxError
          end
      | PSyntaxError => PSyntaxError
      | POutOfFuel => POutOfFuel
      end
  end
with parse_members (fuel : nat) (s : jsstring)
  : presult (list (jsstring * json)) :=
  match fuel with
  | O => POutOfFuel
  | S fuel' =>
      match skip_ws s with
      | [] => PSyntaxError
      | q :: s1 =>
          if q =? 34 then
            match parse_chars s1 with
            | None => PSyntaxError
            | Some (k, s2) =>
                match skip_ws s2 with
                | [] => PSyntaxError
                | col :: s3 =>
                    if col =? 58 then
                      match parse_value fuel' s3 with
                      | POk v s4 =>
                          match skip_ws s4 with
                          | [] => PSyntaxError
                          | d :: s5 =>
                              if d =? 44 then
                                match parse_members fuel' s5 with
                                | POk ms r => POk ((k, v) :: ms) r
                                | PSyntaxError => PSyntaxError
                                | POutOfFuel => POutOfFuel
                                end
                              else if d =? 125 then POk [(k, v)] s5
                              else PSyntaxError
                          end
                      | PSyntaxError => PSyntaxError
                      | POutOfFuel => POutOfFuel
                      end
                    else PSyntaxError
                end
            end
          else PSyntaxError
      end
  end.

(** [JSON.parse(s)]: one value between optional white space; a
    [SyntaxError] is thrown otherwise.  The fuel is more than twice the
    length of the text, which no text exhausts ([parse_value_fuel]). *)
Definition JSON_parse (s : jsstring) : completion json :=
  match parse_value (S (2 * length s)) s with
  | POk v rest =>
      match skip_ws rest with
      | [] => Normal v
      | _ :: _ => Throw
      end
  | PSyntaxError => Throw
  | POutOfFuel => Throw
  end.

(* ================================================================== *)
(** * Web Storage *)
(* ================================================================== *)

(** [localStorage]: the stored items, whether the storage can be accessed
    at all (access throws a [SecurityError] otherwise), and the number of
    code units it can hold (a write beyond it throws a
    [QuotaExceededError]). *)
Record Storage := mkStorage {
  items : gmap jsstring jsstring;
  accessible : bool;
  quota : nat
}.

Definition storage_size (m : gmap jsstring jsstring) : nat :=
  map_fold (fun k v acc => (length k + length v + acc)%nat) 0%nat m.

Definition getItem (key : jsstring) (st : Storage)
  : completion (option jsstring) :=
  if accessible st then Normal (items st !! key) else Throw.

Definition setItem (key val : jsstring) (st : Storage) : completion Storage :=
  if accessible st then
    let m := <[key := val]> (items st) in
    if (storage_size m <=? quota st)%nat
    then Normal (mkStorage m true (quota st))
    else Throw
  else Throw.

(* ================================================================== *)
(** * The hook [useLocalStorage] *)
(* ================================================================== *)

(** The initializer passed to [useState]: the value the hook starts
    with. *)
Definition useLocalStorage_init (key : jsstring) (initialValue : json)
    (st : Storage) : completion json :=
  try_catch
    (bind (getItem key st) (fun raw =>
       match raw with
       | Some r => if falsy r then Normal initialValue else JSON_parse r
       | None => Normal initialValue
       end))
    (Normal initialValue).

(** The effect run when [value] changes: the storage afterwards. *)
Definition useLocalStorage_effect (key : jsstring) (value : json)
    (st : Storage) : completion Storage :=
  try_catch (setItem key (JSON_stringify value) st) (Normal st).

(* ================================================================== *)
(** * The task list *)
(* ================================================================== *)

(** The object literal built in [addTask]. *)
Record Task := mkTask {
  id : jsstring;
  text : jsstring;
  completed : bool;
  createdAt : Z
}.

(** What one call of [addTask] reads from the environment: the clock
    twice ([Date.now()] for the id and for [createdAt]) and the random
    suffix [Math.random().toString(36).slice(2, 8)]. *)
Record Draw := mkDraw {
  now_id : Z;
  rand : jsstring;
  now_created : Z
}.

(** The template literal [`${Date.now()}_${...}`]. *)
Definition newId (now : Z) (rnd : jsstring) : jsstring :=
  Number_toString now ++ lit "_" ++ rnd.

(** The state of the component [TodoApp]: one field per [useState]
    ([input] is the source's [text], the contents of the new-task box). *)
Record TodoApp := mkTodoApp {
  tasks : list Task;
  input : jsstring;
  filter : jsstring;
  query : jsstring;
  editingId : option jsstring;
  editingText : jsstring
}.

Definition setTasks (l : list Task) (st : TodoApp) : TodoApp :=
  mkTodoApp l (input st) (filter st) (query st) (editingId st) (editingText st).
Definition setText (s : jsstring) (st : TodoApp) : TodoApp :=
  mkTodoApp (tasks st) s (filter st) (query st) (editingId st) (editingText st).
Definition setFilter (f : jsstring) (st : TodoApp) : TodoApp :=
  mkTodoApp (tasks st) (input st) f (query st) (editingId st) (editingText st).
Definition setQuery (q : jsstring) (st : TodoApp) : TodoApp :=
  mkTodoApp (tasks st) (input st) (filter st) q (editingId st) (editingText st).
Definition setEditingId (i : option jsstring) (st : TodoApp) : TodoApp :=
  mkTodoApp (tasks st) (input st) (filter st) (query st) i (editingText st).
Definition setEditingText (s : jsstring) (st : TodoApp) : TodoApp :=
  mkTodoApp (tasks st) (input st) (filter st) (query st) (editingId st) s.

(** [useState] initial values. *)
Definition initialState (loaded : list Task) : TodoApp :=
  mkTodoApp loaded [] (lit "all") [] None [].

(** [t.id === editingId], where [editingId] may be [null]. *)
Definition id_is (i : option jsstring) (t : Task) : bool :=
  match i with
  | Some j => str_eqb (id t) j
  | None => false
  end.

Definition addTask (d : Draw) (st : TodoApp) : TodoApp :=
  let val := trim (input st) in
  if falsy val then st
  else
    let newTask :=
      {| id := newId (now_id d) (rand d);
         text := val;
         completed := false;
         createdAt := now_created d |} in
    setText [] (setTasks (newTask :: tasks st) st).

Definition toggleTask (i : jsstring) (st : TodoApp) : TodoApp :=
  setTasks
    (List.map
       (fun t =>
          if str_eqb (id t) i
          then mkTask (id t) (text t) (negb (completed t)) (createdAt t)
          else t)
       (tasks st))
    st.

Definition deleteTask (i : jsstring) (st : TodoApp) : TodoApp :=
  setTasks (List.filter (fun t => negb (str_eqb (id t) i)) (tasks st)) st.

Definition clearCompleted (st : TodoApp) : TodoApp :=
  setTasks (List.filter (fun t => negb (completed t)) (tasks st)) st.

Definition startEdit (i : jsstring) (st : TodoApp) : TodoApp :=
  match List.find (fun x => str_eqb (id x) i) (tasks st) with
  | None => st
  | Some t => setEditingText (text t) (setEditingId (Some i) st)
  end.

Definition saveEdit (st : TodoApp) : TodoApp :=
  let val := trim (editingText st) in
  if falsy val then setEditingText [] (setEditingId None st)
  else
    setEditingText []
      (setEditingId None
         (setTasks
            (List.map
               (fun t =>
                  if id_is (editingId st) t
                  then mkTask (id t) val (completed t) (createdAt t)
                  else t)
               (tasks st))
            st)).

(** The Cancel button and the Escape key. *)
Definition cancelEdit (st : TodoApp) : TodoApp :=
  setEditingText [] (setEditingId None st).

(** The view [filtered], with the engine's case mapping as a parameter:
    the two callbacks, for the status [filter] and the [query], and the
    memoized value. *)
Definition status_test (f : jsstring) (t : Task) : bool :=
  if str_eqb f (lit "all") then true
  else if str_eqb f (lit "active") then negb (completed t)
  else completed t.

Section Filtered.
Variable toLowerCase : jsstring -> jsstring.

Definition query_test (q : jsstring) (t : Task) : bool :=
  includes (toLowerCase (text t)) (toLowerCase (trim q)).

Definition filtered (st : TodoApp) : list Task :=
  List.filter (query_test (query st))
    (List.filter (status_test (filter st)) (tasks st)).

End Filtered.

(** ** The operations of the task store

    The spec's [add(s)] is the Add button (or Enter) with [s] in the
    new-task box; its [edit(i, s)] is the Save button (or Enter) while the
    row of task [i] is being edited with [s] in the edit box. *)
Definition add (s : jsstring) (d : Draw) (st : TodoApp) : TodoApp :=
  addTask d (setText s st).

Definition edit (i s : jsstring) (st : TodoApp) : TodoApp :=
  saveEdit (setEditingText s (setEditingId (Some i) st)).

(** ** The events of the component *)

Inductive Event :=
| ChangeText (s : jsstring)
| AddTask (d : Draw)
| ToggleTask (i : jsstring)
| DeleteTask (i : jsstring)
| ClearCompleted
| StartEdit (i : jsstring)
| ChangeEditingText (s : jsstring)
| SaveEdit
| CancelEdit
| SetFilter (f : jsstring)
| ChangeQuery (q : jsstring).

Definition handle (e : Event) (st : TodoApp) : TodoApp :=
  match e with
  | ChangeText s => setText s st
  | AddTask d => addTask d st
  | ToggleTask i => toggleTask i st
  | DeleteTask i => deleteTask i st
  | ClearCompleted => clearCompleted st
  | StartEdit i => startEdit i st
  | ChangeEditingText s => setEditingText s st
  | SaveEdit => saveEdit st
  | CancelEdit => cancelEdit st
  | SetFilter f => setFilter f st
  | ChangeQuery q => setQuery q st
  end.

Fixpoint run (evs : list Event) (st : TodoApp) : TodoApp :=
  match evs with
  | [] => st
  | e :: evs' => run evs' (handle e st)
  end.

(** The five operations of the task store, and the events that carry
    them out. *)
Inductive Op :=
| Add (s : jsstring) (d : Draw)
| Toggle (i : jsstring)
| Edit (i s : jsstring)
| Delete (i : jsstring)
| ClearCompletedOp.

Definition events_of (o : Op) : list Event :=
  match o with
  | Add s d => [ChangeText s; AddTask d]
  | Toggle i => [ToggleTask i]
  | Edit i s => [StartEdit i; ChangeEditingText s; SaveEdit]
  | Delete i => [DeleteTask i]
  | ClearCompletedOp => [ClearCompleted]
  end.

(** Some task of the list has id [i]. *)
Definition has_id (i : jsstring) (l : list Task) : bool :=
  existsb (fun t => str_eqb (id t) i) l.

(** The generator is fresh along a run: every [addTask] that adds a task
    draws an id that no task of the list has at that moment. *)
Fixpoint fresh_ids (evs : list Event) (st : TodoApp) : bool :=
  match evs with
  | [] => true
  | e :: evs' =>
      match e with
      | AddTask d =>
          falsy (trim (input st))
          || negb (has_id (newId (now_id d) (rand d)) (tasks st))
      | _ => true
      end
      && fresh_ids evs' (handle e st)
  end.

(** Empty or white space only. *)
Definition blank (s : jsstring) : bool := forallb isWhiteSpace s.

(** The invariant of the task list: no text is blank, no id is shared. *)
Definition wf_tasks (l : list Task) : Prop :=
  Forall (fun t => blank (text t) = false) l /\ List.NoDup (List.map id l).

(** ** Persistence of the task list *)

(** The task list as the JavaScript value it is. *)
Definition json_of_task (t : Task) : json :=
  JObj [(lit "id", JStr (id t));
        (lit "text", JStr (text t));
        (lit "completed", JBool (completed t));
        (lit "createdAt", JNum (createdAt t))].

Definition json_of_tasks (l : list Task) : json :=
  JArr (List.map json_of_task l).

(** [useLocalStorage("todoapp-v1", [])] *)
Definition storageKey : jsstring := lit "todoapp-v1".

Definition load (st : Storage) : completion json :=
  useLocalStorage_init storageKey (JArr []) st.

Definition persist (l : list Task) (st : Storage) : completion Storage :=
  useLocalStorage_effect storageKey (json_of_tasks l) st.

(** ** The claims in the words of the specification *)

(** The status filter as the spec words it. *)
Definition passes_status (f : jsstring) (t : Task) : Prop :=
  (f = lit "all")
  \/ (f = lit "active" /\ completed t = false)
  \/ (f = lit "done" /\ completed t = true).

Section SpecWords.
Variable toLowerCase : jsstring -> jsstring.

(** [q] is a case-insensitive substring of [s]. *)
Definition contains_ci (s q : jsstring) : Prop :=
  exists pre post, toLowerCase s = pre ++ toLowerCase q ++ post.

(** The search predicate of the spec on the query as given: a blank
    query matches every task, any other one the tasks whose text
    contains it. *)
Definition matches_query_as_given (q : jsstring) (t : Task) : Prop :=
  blank q = true \/ contains_ci (text t) q.

End SpecWords.

(** A stored string that parses as an array of tasks. *)
Definition parses_as_task_array (raw : jsstring) : Prop :=
  exists l, JSON_parse raw = Normal (json_of_tasks l).

(** ** The rest of the component

    [classNames], the counter of the header, the rows that show the edit
    box, and the session: the component together with the storage its hook
    writes to. *)

(** [Array.prototype.join] *)
Fixpoint join (sep : jsstring) (l : list jsstring) : jsstring :=
  match l with
  | [] => []
  | [x] => x
  | x :: l' => x ++ sep ++ join sep l'
  end.

(** [classNames(...cls)], on the strings its callers pass:
    [cls.filter(Boolean).join(" ")]. *)
Definition classNames (cls : list jsstring) : jsstring :=
  join (lit " ") (List.filter (fun c => negb (falsy c)) cls).

(** [remaining], the number the header shows. *)
Definition remaining (st : TodoApp) : nat :=
  length (List.filter (fun t => negb (completed t)) (tasks st)).

(** The rows of the list that are rendered as an edit box:
    [editingId === task.id] over [filtered]. *)
Definition editBoxes (toLowerCase : jsstring -> jsstring) (st : TodoApp)
  : list Task :=
  List.filter (id_is (editingId st)) (filtered toLowerCase st).

(** [handleKeyDown], on the key of the event: Enter in the new-task box
    adds. *)
Definition handleKeyDown (key : jsstring) (d : Draw) (st : TodoApp) : TodoApp :=
  if str_eqb key (lit "Enter") then addTask d st else st.

(** The [onKeyDown] of the edit box: Enter saves, and then Escape
    cancels. *)
Definition editKeyDown (key : jsstring) (st : TodoApp) : TodoApp :=
  let st1 := if str_eqb key (lit "Enter") then saveEdit st else st in
  if str_eqb key (lit "Escape") then cancelEdit st1 else st1.

(** What no handler changes in a task: its id and its creation time. *)
Definition keys (l : list Task) : list (jsstring * Z) :=
  List.map (fun t => (id t, createdAt t)) l.

(** The clock never runs backwards along the events: every [addTask]
    reads a creation time that is at least [lo] and at least the ones read
    before it. *)
Fixpoint clock_monotone (lo : Z) (evs : list Event) : Prop :=
  match evs with
  | [] => True
  | AddTask d :: evs' => (lo <= now_created d)%Z /\ clock_monotone (now_created d) evs'
  | _ :: evs' => clock_monotone lo evs'
  end.

(** *** The session *)

Record World := mkWorld {
  todo : TodoApp;
  storage : Storage
}.

(** The stored value is the list [l]. *)
Definition hydrates (st : Storage) (l : list Task) : Prop :=
  load st = Normal (json_of_tasks l).

(** Whether the handler of the event calls [setTasks]: the array is a new
    one then, and the effect of the hook runs. *)
Definition calls_setTasks (e : Event) (st : TodoApp) : bool :=
  match e with
  | AddTask _ => negb (falsy (trim (input st)))
  | ToggleTask _ => true
  | DeleteTask _ => true
  | ClearCompleted => true
  | SaveEdit => negb (falsy (trim (editingText st)))
  | _ => false
  end.

(** The storage after the effect of the hook ran for the list [l]. *)
Definition after_effect (l : list Task) (st : Storage) : Storage :=
  match persist l st with
  | Normal st' => st'
  | Throw => st
  end.

(** The write of the list [l] would complete normally. *)
Definition write_ok (l : list Task) (st : Storage) : bool :=
  match setItem storageKey (JSON_stringify (json_of_tasks l)) st with
  | Normal _ => true
  | Throw => false
  end.

(** The storage holds the list of the component, written by a write that
    completed normally. *)
Definition in_sync (w : World) : Prop :=
  setItem storageKey (JSON_stringify (json_of_tasks (tasks (todo w))))
    (storage w)
  = Normal (storage w).

(** The first render: the state starts from the stored list and the
    effect runs once. *)
Definition mount (l : list Task) (st : Storage) : World :=
  mkWorld (initialState l) (after_effect l st).

Definition dispatch (e : Event) (w : World) : World :=
  let a := handle e (todo w) in
  mkWorld a
    (if calls_setTasks e (todo w)
     then after_effect (tasks a) (storage w)
     else storage w).

Fixpoint session (evs : list Event) (w : World) : World :=
  match evs with
  | [] => w
  | e :: evs' => session evs' (dispatch e w)
  end.

(** Every write along the events completes normally. *)
Fixpoint writes_ok (evs : list Event) (w : World) : bool :=
  match evs with
  | [] => true
  | e :: evs' =>
      (negb (calls_setTasks e (todo w))
       || write_ok (tasks (handle e (todo w))) (storage w))
      && writes_ok evs' (dispatch e w)
  end.

(** ** Example data

    The list of the spec's examples, with a draw of the generator. *)
Definition ex_tasks : list Task :=
  [mkTask (lit "1") (lit "Buy milk") false 1700000000000%Z;
   mkTask (lit "2") (lit "Call mom") true 1700000000500%Z].

Definition ex_state : TodoApp := initialState ex_tasks.

Definition ex_draw : Draw := mkDraw 1700000001000%Z (lit "k3x9qa") 1700000001000%Z.

(** A run of the component: two tasks added, one completed, one
    edited. *)
Definition ex_events : list Event :=
  [ChangeText (lit " Buy milk ");
   AddTask (mkDraw 1700000000000 (lit "a1b2c3") 1700000000001);
   ChangeText (lit "Call mom");
   AddTask (mkDraw 1700000000500 (lit "k3x9qa") 1700000000500);
   ToggleTask (lit "1700000000500_k3x9qa");
   StartEdit (lit "1700000000000_a1b2c3");
   ChangeEditingText (lit "Buy oat milk ");
   SaveEdit].

(** An empty storage with room for 5000 code units, and the same after
    the example list was written to it. *)
Definition ex_storage : Storage := mkStorage ∅ true 5000.

Definition ex_storage_written : Storage :=
  mkStorage (<[storageKey := JSON_stringify (json_of_tasks ex_tasks)]> ∅)
    true 5000.

(** A storage that holds valid JSON that is no array of tasks. *)
Definition ex_storage_null : Storage :=
  mkStorage (<[storageKey := lit "null"]> ∅) true 5000.

(** A storage that holds no JSON, and one that cannot be accessed. *)
Definition ex_storage_garbage : Storage :=
  mkStorage (<[storageKey := lit "[{oops"]> ∅) true 5000.

Definition ex_storage_denied : Storage := mkStorage ∅ false 5000.

(* ================================================================== *)
(** * Strings: equality, trimming, searching *)
(* ================================================================== *)

Lemma str_eqb_eq (a b : jsstring) : str_eqb a b = true <-> a = b.
Proof.
  revert b. induction a as [|x a IH]; intros [|y b]; simpl; try easy.
  rewrite andb_true_iff, N.eqb_eq, IH.
  split; [intros [-> ->]; reflexivity | intros [= -> ->]; auto].
Qed.

Lemma str_eqb_refl (a : jsstring) : str_eqb a a = true.
Proof. now apply str_eqb_eq. Qed.

Lemma str_eqb_neq (a b : jsstring) : str_eqb a b = false <-> a <> b.
Proof.
  rewrite <- str_eqb_eq. destruct (str_eqb a b); split; congruence.
Qed.

Lemma falsy_nil (s : jsstring) : falsy s = true <-> s = [].
Proof. destruct s; simpl; split; congruence. Qed.

Lemma falsy_cons (s : jsstring) : falsy s = false <-> s <> [].
Proof. destruct s; simpl; split; congruence. Qed.

Lemma trimEnd_cons (c : N) (s : jsstring) :
  trimEnd (c :: s) =
  match trimEnd s with
  | [] => if isWhiteSpace c then [] else [c]
  | r => c :: r
  end.
Proof. reflexivity. Qed.

Lemma trimEnd_keeps_head (c : N) (s : jsstring) :
  isWhiteSpace c = false -> trimEnd (c :: s) = c :: trimEnd s.
Proof.
  intros W. rewrite trimEnd_cons, W. now destruct (trimEnd s).
Qed.

Lemma trimEnd_idem (s : jsstring) : trimEnd (trimEnd s) = trimEnd s.
Proof.
  induction s as [|c s IH]; [reflexivity|].
  rewrite trimEnd_cons. destruct (trimEnd s) as [|x r] eqn:E.
  - destruct (isWhiteSpace c) eqn:W; [reflexivity|].
    simpl. now rewrite W.
  - rewrite trimEnd_cons, IH. reflexivity.
Qed.

Lemma trimStart_head (s : jsstring) :
  trimStart s = []
  \/ exists c r, trimStart s = c :: r /\ isWhiteSpace c = false.
Proof.
  induction s as [|c s IH]; simpl; [now left|].
  destruct (isWhiteSpace c) eqn:W; [exact IH|].
  right. now exists c, s.
Qed.

Lemma trimStart_keeps (c : N) (s : jsstring) :
  isWhiteSpace c = false -> trimStart (c :: s) = c :: s.
Proof. intros W. simpl. now rewrite W. Qed.

Lemma trim_idem (s : jsstring) : trim (trim s) = trim s.
Proof.
  unfold trim. destruct (trimStart_head s) as [E|(c & r & E & W)]; rewrite E.
  - reflexivity.
  - rewrite (trimEnd_keeps_head _ _ W), (trimStart_keeps _ _ W).
    rewrite (trimEnd_keeps_head _ _ W), trimEnd_idem. reflexivity.
Qed.

Lemma trimStart_blank (s : jsstring) : trimStart s = [] <-> blank s = true.
Proof.
  induction s as [|c s IH]; simpl; [easy|].
  destruct (isWhiteSpace c); simpl; [exact IH | easy].
Qed.

Lemma trimEnd_blank (s : jsstring) : blank s = true -> trimEnd s = [].
Proof.
  induction s as [|c s IH]; simpl; [easy|].
  intros [W B]%andb_true_iff. now rewrite (IH B), W.
Qed.

Lemma trim_blank (s : jsstring) : trim s = [] <-> blank s = true.
Proof.
  unfold trim. rewrite <- trimStart_blank.
  destruct (trimStart_head s) as [E|(c & r & E & W)]; rewrite E.
  - easy.
  - rewrite (trimEnd_keeps_head _ _ W). easy.
Qed.

(** A trimmed string that is not empty is not blank either. *)
Lemma trim_not_blank (s : jsstring) : trim s <> [] -> blank (trim s) = false.
Proof.
  unfold trim. destruct (trimStart_head s) as [E|(c & r & E & W)]; rewrite E.
  - easy.
  - intros _. rewrite (trimEnd_keeps_head _ _ W). simpl. now rewrite W.
Qed.

Lemma trimStart_app_blank (a s : jsstring) :
  blank a = true -> trimStart (a ++ s) = trimStart s.
Proof.
  induction a as [|c a IH]; simpl; [easy|].
  intros [W B]%andb_true_iff. rewrite W. auto.
Qed.

Lemma trimEnd_app_blank (s b : jsstring) :
  blank b = true -> trimEnd (s ++ b) = trimEnd s.
Proof.
  intros B. induction s as [|c s IH].
  - now apply trimEnd_blank.
  - simpl app. now rewrite !trimEnd_cons, IH.
Qed.

(** White space around a string does not survive [trim]. *)
Lemma trim_padding (a s b : jsstring) :
  blank a = true -> blank b = true -> trim (a ++ s ++ b) = trim s.
Proof.
  intros Ba Bb. unfold trim. rewrite (trimStart_app_blank _ _ Ba).
  induction s as [|c s IH].
  - simpl. apply trimStart_blank in Bb. now rewrite Bb.
  - change ((c :: s) ++ b) with (c :: (s ++ b)). simpl trimStart.
    destruct (isWhiteSpace c); [exact IH|].
    exact (trimEnd_app_blank (c :: s) b Bb).
Qed.

Lemma startsWith_prefix (s p : jsstring) :
  startsWith s p = true <-> exists post, s = p ++ post.
Proof.
  revert s. induction p as [|x p IH]; intros [|y s]; simpl.
  - split; [intros _; now exists [] | reflexivity].
  - split; [intros _; now exists (y :: s) | reflexivity].
  - split; [discriminate | intros [post H]; discriminate].
  - rewrite andb_true_iff, N.eqb_eq, IH. split.
    + intros [-> [post ->]]. now exists post.
    + intros [post [= -> ->]]. split; [reflexivity | now exists post].
Qed.

(** [includes] finds exactly the substrings. *)
Lemma includes_substring (s p : jsstring) :
  includes s p = true <-> exists pre post, s = pre ++ p ++ post.
Proof.
  induction s as [|c s IH].
  - change (includes [] p) with (startsWith [] p || false).
    rewrite orb_false_r, startsWith_prefix. split.
    + intros [post H]. now exists [], post.
    + intros (pre & post & H). symmetry in H.
      apply app_eq_nil in H as [-> H]. now exists post.
  - change (includes (c :: s) p) with (startsWith (c :: s) p || includes s p).
    rewrite orb_true_iff, startsWith_prefix, IH. split.
    + intros [[post H]|(pre & post & H)].
      * now exists [], post.
      * exists (c :: pre), post. simpl. now rewrite H.
    + intros ([|x pre] & post & H).
      * left. now exists post.
      * right. injection H as _ H. now exists pre, post.
Qed.

(* ================================================================== *)
(** * Lists: [filter] and [map] as the component uses them *)
(* ================================================================== *)

Lemma filter_sublist {A} (f : A -> bool) (l : list A) :
  List.filter f l `sublist_of` l.
Proof.
  induction l as [|x l IH]; simpl; [constructor|].
  destruct (f x); now constructor.
Qed.

(** [filter] keeps every subsequence whose elements all pass. *)
Lemma filter_greatest {A} (f : A -> bool) (k l : list A) :
  k `sublist_of` l -> Forall (fun x => f x = true) k ->
  k `sublist_of` List.filter f l.
Proof.
  induction 1 as [|x k l _ IH|x k l _ IH]; intros F; simpl.
  - constructor.
  - inversion F as [|? ? Fx Fk]; subst. rewrite Fx. constructor. auto.
  - destruct (f x); [constructor|]; auto.
Qed.

Lemma filter_idem {A} (f : A -> bool) (l : list A) :
  List.filter f (List.filter f l) = List.filter f l.
Proof.
  induction l as [|x l IH]; simpl; [reflexivity|].
  destruct (f x) eqn:E; simpl; [rewrite E|]; congruence.
Qed.

Lemma filter_all {A} (f : A -> bool) (l : list A) :
  (forall x, In x l -> f x = true) -> List.filter f l = l.
Proof.
  induction l as [|x l IH]; simpl; intros H; [reflexivity|].
  rewrite (H x) by now left. f_equal. apply IH. intros y Hy. apply H. now right.
Qed.

Lemma map_unchanged {A} (f : A -> A) (l : list A) :
  (forall x, In x l -> f x = x) -> List.map f l = l.
Proof.
  induction l as [|x l IH]; simpl; intros H; [reflexivity|].
  rewrite (H x) by now left. f_equal. apply IH. intros y Hy. apply H. now right.
Qed.

Lemma has_id_In (i : jsstring) (l : list Task) :
  has_id i l = true <-> In i (List.map id l).
Proof.
  unfold has_id. rewrite existsb_exists, in_map_iff. split.
  - intros (t & Ht & E). apply str_eqb_eq in E. now exists t.
  - intros (t & E & Ht). exists t. split; [easy|]. now apply str_eqb_eq.
Qed.

Lemma has_id_absent (i : jsstring) (l : list Task) :
  has_id i l = false -> forall t, In t l -> str_eqb (id t) i = false.
Proof.
  intros H t Ht. destruct (str_eqb (id t) i) eqn:E; [|reflexivity].
  assert (has_id i l = true) as H'; [|congruence].
  apply has_id_In, in_map_iff. exists t. split; [|easy]. now apply str_eqb_eq.
Qed.

Lemma setTasks_same (st : TodoApp) : setTasks (tasks st) st = st.
Proof. now destruct st. Qed.

Lemma map_id_same (f : Task -> Task) (l : list Task) :
  (forall t, id (f t) = id t) -> List.map id (List.map f l) = List.map id l.
Proof.
  intros H. rewrite List.map_map. apply List.map_ext. exact H.
Qed.

Lemma NoDup_ids_filter (f : Task -> bool) (l : list Task) :
  List.NoDup (List.map id l) -> List.NoDup (List.map id (List.filter f l)).
Proof.
  induction l as [|t l IH]; simpl; intros H; [constructor|].
  inversion H as [|? ? Hnotin Hrest]; subst.
  destruct (f t); simpl; [constructor|]; auto.
  intros Hin. apply Hnotin.
  apply in_map_iff in Hin as (u & E & Hu).
  apply filter_In in Hu as [Hu _].
  apply in_map_iff. now exists u.
Qed.

Lemma Forall_filter_keeps {A} (P : A -> Prop) (f : A -> bool) (l : list A) :
  Forall P l -> Forall P (List.filter f l).
Proof.
  induction 1 as [|x l Hx _ IH]; simpl; [constructor|].
  destruct (f x); [constructor|]; assumption.
Qed.

Lemma Forall_map_keeps {A} (P : A -> Prop) (f : A -> A) (l : list A) :
  (forall x, P x -> P (f x)) -> Forall P l -> Forall P (List.map f l).
Proof.
  intros H. induction 1 as [|x l Hx _ IH]; simpl; constructor; auto.
Qed.

(* ================================================================== *)
(** * The id generator *)
(* ================================================================== *)

Lemma uint_chars_digits (u : Decimal.uint) :
  Forall (fun c => isDigit c = true) (uint_chars u).
Proof. induction u; simpl; constructor; auto. Qed.






(* ================================================================== *)
(** * The operations of the task store *)
(* ================================================================== *)

Lemma tasks_add (s : jsstring) (d : Draw) (st : TodoApp) :
  tasks (add s d st) =
  if falsy (trim s) then tasks st
  else mkTask (newId (now_id d) (rand d)) (trim s) false (now_created d)
       :: tasks st.
Proof.
  unfold add, addTask. simpl. now destruct (falsy (trim s)).
Qed.

Lemma tasks_edit (i s : jsstring) (st : TodoApp) :
  tasks (edit i s st) =
  if falsy (trim s) then tasks st
  else List.map
         (fun t =>
            if str_eqb (id t) i
            then mkTask (id t) (trim s) (completed t) (createdAt t)
            else t)
         (tasks st).
Proof.
  unfold edit, saveEdit. simpl. now destruct (falsy (trim s)).
Qed.

Lemma find_has_id (i : jsstring) (l : list Task) :
  has_id i l = true -> exists t, List.find (fun x => str_eqb (id x) i) l = Some t.
Proof.
  unfold has_id. induction l as [|t l IH]; simpl; [discriminate|].
  destruct (str_eqb (id t) i); simpl; [now exists t | exact IH].
Qed.

(** Through the user interface, an edit of a task of the list is [edit]. *)
Lemma run_Edit (i s : jsstring) (st : TodoApp) :
  has_id i (tasks st) = true -> run (events_of (Edit i s)) st = edit i s st.
Proof.
  intros H. simpl. unfold startEdit, edit.
  destruct (find_has_id i (tasks st) H) as [t ->]. reflexivity.
Qed.



(** C5: for a task [i] of the list, [edit(i, s)] is what the Edit button,
    the edit box and Save do; it leaves the list as it is when [s] trims to
    the empty string; otherwise every position keeps its task, with the
    same id, completed flag and creation time, and the text becomes
    [trim s] at the tasks with id [i] and stays elsewhere. *)
Theorem edit_spec (i s : jsstring) (st : TodoApp) :
  has_id i (tasks st) = true ->
  run (events_of (Edit i s)) st = edit i s st
  /\ (trim s = [] -> tasks (edit i s st) = tasks st)
  /\ (trim s <> [] ->
      length (tasks (edit i s st)) = length (tasks st)
      /\ forall k t,
           nth_error (tasks st) k = Some t ->
           exists t',
             nth_error (tasks (edit i s st)) k = Some t'
             /\ id t' = id t
             /\ completed t' = completed t
             /\ createdAt t' = createdAt t
             /\ (id t = i -> text t' = trim s)
             /\ (id t <> i -> t' = t)).
Proof.
  intros Hi. split; [now apply run_Edit|].
  rewrite tasks_edit. split.
  - intros E. now rewrite E.
  - intros E. apply falsy_cons in E. rewrite E.
    split; [apply List.length_map|].
    intros k t Hk. rewrite List.nth_error_map, Hk. simpl.
    eexists. split; [reflexivity|].
    destruct (str_eqb (id t) i) eqn:Ei; simpl.
    + apply str_eqb_eq in Ei. repeat split; congruence.
    + apply str_eqb_neq in Ei. repeat split; congruence.
Qed.

Lemma edit_spec_witness :
  tasks (edit (lit "1") (lit "   ") ex_state) = ex_tasks
  /\ exists t',
       nth_error (tasks (edit (lit "1") (lit " Buy oat milk") ex_state)) 0
       = Some t'
       /\ text t' = lit "Buy oat milk".
Proof.
  assert (has_id (lit "1") (tasks ex_state) = true) as Hi by reflexivity.
  split.
  - apply (edit_spec (lit "1") (lit "   ") ex_state Hi). reflexivity.
  - destruct (edit_spec (lit "1") (lit " Buy oat milk") ex_state Hi)
      as (_ & _ & H).
    destruct H as [_ H]; [vm_compute; discriminate|].
    destruct (H 0%nat (mkTask (lit "1") (lit "Buy milk") false 1700000000000%Z))
      as (t' & E & _ & _ & _ & T & _); [reflexivity|].
    exists t'. split; [exact E | apply T; reflexivity].
Defined.

(** C6: toggling the same id twice gives the state back, and one toggle
    does flip the flag at the tasks with that id. *)
Theorem toggle_involution (i : jsstring) (st : TodoApp) :
  toggleTask i (toggleTask i st) = st
  /\ forall k t,
       nth_error (tasks st) k = Some t -> id t = i ->
       nth_error (tasks (toggleTask i st)) k
       = Some (mkTask (id t) (text t) (negb (completed t)) (createdAt t)).
Proof.
  split.
  - destruct st as [l inp f q ei et]. unfold toggleTask, setTasks. simpl.
    f_equal. rewrite List.map_map. apply map_unchanged. intros t _.
    destruct (str_eqb (id t) i) eqn:E; simpl; rewrite E; [|reflexivity].
    destruct t as [a b c e]. simpl. now rewrite negb_involutive.
  - intros k t Hk Ei. simpl. rewrite List.nth_error_map, Hk. simpl.
    apply str_eqb_eq in Ei. now rewrite Ei.
Qed.

Lemma toggle_involution_witness :
  toggleTask (lit "2") (toggleTask (lit "2") ex_state) = ex_state
  /\ nth_error (tasks (toggleTask (lit "2") ex_state)) 1
     = Some (mkTask (lit "2") (lit "Call mom") false 1700000000500%Z).
Proof.
  split.
  - apply (toggle_involution (lit "2") ex_state).
  - apply (proj2 (toggle_involution (lit "2") ex_state) 1%nat
             (mkTask (lit "2") (lit "Call mom") true 1700000000500%Z));
      reflexivity.
Defined.

(** C7: [clearCompleted] keeps a subsequence of the list, made of exactly
    the tasks that are not completed (every subsequence of tasks that are
    not completed is a subsequence of the result), and a second call
    changes nothing. *)
Theorem clearCompleted_spec (st : TodoApp) :
  tasks (clearCompleted st) `sublist_of` tasks st
  /\ (forall t,
        In t (tasks (clearCompleted st))
        <-> In t (tasks st) /\ completed t = false)
  /\ (forall k,
        k `sublist_of` tasks st ->
        Forall (fun t => completed t = false) k ->
        k `sublist_of` tasks (clearCompleted st))
  /\ clearCompleted (clearCompleted st) = clearCompleted st.
Proof.
  unfold clearCompleted. simpl. repeat split.
  - apply filter_sublist.
  - now apply filter_In in H.
  - apply filter_In in H as [_ H]. now apply negb_true_iff in H.
  - intros [H1 H2]. apply filter_In. split; [easy|]. now rewrite H2.
  - intros k Hk F. apply filter_greatest; [easy|].
    eapply List.Forall_impl; [|exact F]. simpl. intros t ->. reflexivity.
  - unfold setTasks. simpl. now rewrite filter_idem.
Qed.

Lemma clearCompleted_spec_witness :
  tasks (clearCompleted ex_state)
  = [mkTask (lit "1") (lit "Buy milk") false 1700000000000%Z]
  /\ [mkTask (lit "1") (lit "Buy milk") false 1700000000000%Z]
     `sublist_of` tasks (clearCompleted ex_state).
Proof.
  split; [reflexivity|].
  destruct (clearCompleted_spec ex_state) as (_ & _ & H & _).
  apply H.
  - apply sublist_skip, sublist_cons, sublist_nil.
  - repeat constructor.
Defined.

(** C8: deleting the same id twice is deleting it once; and for an id that
    no task of the list has, [delete], [toggle] and [edit] leave the list
    as it is. *)
Theorem delete_idempotent_unknown_noop (i : jsstring) (st : TodoApp) :
  deleteTask i (deleteTask i st) = deleteTask i st
  /\ (has_id i (tasks st) = false ->
      deleteTask i st = st
      /\ toggleTask i st = st
      /\ forall s, tasks (edit i s st) = tasks st).
Proof.
  split.
  - unfold deleteTask, setTasks. simpl. now rewrite filter_idem.
  - intros H. pose proof (has_id_absent i (tasks st) H) as Hno.
    repeat split.
    + unfold deleteTask. rewrite filter_all; [apply setTasks_same|].
      intros t Ht. now rewrite (Hno t Ht).
    + unfold toggleTask. rewrite map_unchanged; [apply setTasks_same|].
      intros t Ht. now rewrite (Hno t Ht).
    + intros s. rewrite tasks_edit. destruct (falsy (trim s)); [reflexivity|].
      apply map_unchanged. intros t Ht. now rewrite (Hno t Ht).
Qed.

Lemma delete_idempotent_unknown_noop_witness :
  deleteTask (lit "1") (deleteTask (lit "1") ex_state)
  = deleteTask (lit "1") ex_state
  /\ deleteTask (lit "7") ex_state = ex_state
  /\ toggleTask (lit "7") ex_state = ex_state
  /\ tasks (edit (lit "7") (lit "Feed cat") ex_state) = tasks ex_state.
Proof.
  split; [apply (delete_idempotent_unknown_noop (lit "1") ex_state)|].
  destruct (delete_idempotent_unknown_noop (lit "7") ex_state) as [_ H].
  destruct H as (D & T & E); [reflexivity|].
  split; [exact D|]. split; [exact T|]. apply E.
Defined.

(* ================================================================== *)
(** * The filtered view *)
(* ================================================================== *)

Lemma filter_filter {A} (f g : A -> bool) (l : list A) :
  List.filter g (List.filter f l) = List.filter (fun x => f x && g x) l.
Proof.
  induction l as [|x l IH]; simpl; [reflexivity|].
  destruct (f x); simpl; [destruct (g x)|]; congruence.
Qed.

Lemma filtered_filter (toLowerCase : jsstring -> jsstring) (st : TodoApp) :
  filtered toLowerCase st =
  List.filter
    (fun t => status_test (filter st) t && query_test toLowerCase (query st) t)
    (tasks st).
Proof. unfold filtered. now rewrite filter_filter. Qed.

Lemma status_test_passes (f : jsstring) (t : Task) :
  f = lit "all" \/ f = lit "active" \/ f = lit "done" ->
  status_test f t = true <-> passes_status f t.
Proof.
  unfold status_test, passes_status.
  intros [-> | [-> | ->]]; simpl.
  - split; [now left | reflexivity].
  - rewrite negb_true_iff. split.
    + intros E. right. left. now split.
    + intros [E|[[_ E]|[E _]]]; [discriminate E | exact E | discriminate E].
  - split.
    + intros E. right. right. now split.
    + intros [E|[[E _]|[_ E]]]; [discriminate E | discriminate E | exact E].
Qed.

Lemma query_test_contains (toLowerCase : jsstring -> jsstring)
    (q : jsstring) (t : Task) :
  query_test toLowerCase q t = true
  <-> contains_ci toLowerCase (text t) (trim q).
Proof. unfold query_test, contains_ci. apply includes_substring. Qed.

(** C10: the view for a query is the view for the trimmed query; white
    space before and after a query changes nothing. *)
Theorem filtered_query_trimmed (toLowerCase : jsstring -> jsstring)
    (st : TodoApp) :
  filtered toLowerCase (setQuery (trim (query st)) st) = filtered toLowerCase st
  /\ forall a b,
       blank a = true -> blank b = true ->
       filtered toLowerCase (setQuery (a ++ query st ++ b) st)
       = filtered toLowerCase st.
Proof.
  unfold filtered, query_test. simpl. split.
  - now rewrite trim_idem.
  - intros a b Ba Bb. now rewrite trim_padding.
Qed.

Lemma filtered_query_trimmed_witness :
  filtered toLowerCase_ascii (setQuery (lit "  MILK   ") ex_state)
  = filtered toLowerCase_ascii (setQuery (lit "MILK") ex_state).
Proof.
  apply (proj2 (filtered_query_trimmed toLowerCase_ascii
                  (setQuery (lit "MILK") ex_state))
           (lit "  ") (lit "   ")); reflexivity.
Defined.

(** C2, as it is worded, fails: with the query [milk ] (a space after the
    word) the task [Buy milk] is in the view, and its text does not
    contain the query. *)
Lemma filtered_query_as_given_counterexample :
  let t := mkTask (lit "1") (lit "Buy milk") false 1700000000000%Z in
  let st := setQuery (lit "milk ") (initialState [t]) in
  ~ (In t (filtered toLowerCase_ascii st)
     <-> In t (tasks st)
         /\ passes_status (filter st) t
         /\ matches_query_as_given toLowerCase_ascii (query st) t).
Proof.
  intros t st [H _].
  destruct H as (_ & _ & [B|C]).
  - left. reflexivity.
  - discriminate B.
  - apply includes_substring in C. discriminate C.
Qed.

(** C2, amended: for a status filter among [all], [active] and [done], a
    task is in the view if and only if it is in the list, passes the status
    filter and its text contains the trimmed query, case-insensitively; the
    view is a subsequence of the list, the greatest one of such tasks; and
    a blank query is contained in every text (the case mapping maps the
    empty string to itself). *)
Theorem filtered_spec (toLowerCase : jsstring -> jsstring) (st : TodoApp) :
  filter st = lit "all" \/ filter st = lit "active" \/ filter st = lit "done" ->
  (forall t,
     In t (filtered toLowerCase st)
     <-> In t (tasks st)
         /\ passes_status (filter st) t
         /\ contains_ci toLowerCase (text t) (trim (query st)))
  /\ filtered toLowerCase st `sublist_of` tasks st
  /\ (forall k,
        k `sublist_of` tasks st ->
        Forall
          (fun t =>
             passes_status (filter st) t
             /\ contains_ci toLowerCase (text t) (trim (query st)))
          k ->
        k `sublist_of` filtered toLowerCase st)
  /\ (toLowerCase [] = [] ->
      blank (query st) = true ->
      forall t, contains_ci toLowerCase (text t) (trim (query st))).
Proof.
  intros Hf. rewrite filtered_filter.
  assert (forall t,
            status_test (filter st) t && query_test toLowerCase (query st) t
            = true
            <-> passes_status (filter st) t
                /\ contains_ci toLowerCase (text t) (trim (query st))) as Hp.
  { intros t.
    now rewrite andb_true_iff, (status_test_passes _ _ Hf), query_test_contains. }
  split; [|split; [|split]].
  - intros t. rewrite filter_In, Hp. reflexivity.
  - apply filter_sublist.
  - intros k Hk F. apply filter_greatest; [exact Hk|].
    eapply List.Forall_impl; [|exact F]. intros t Ht. now apply Hp.
  - intros Hnil Hb t. apply trim_blank in Hb. rewrite Hb.
    exists [], (toLowerCase (text t)). now rewrite Hnil.
Qed.

Lemma filtered_spec_witness :
  In (mkTask (lit "1") (lit "Buy milk") false 1700000000000%Z)
     (filtered toLowerCase_ascii (setQuery (lit " MILK ") ex_state))
  /\ contains_ci toLowerCase_ascii (lit "Call mom") (trim (lit "   ")).
Proof.
  split.
  - apply (filtered_spec toLowerCase_ascii (setQuery (lit " MILK ") ex_state)).
    + left. reflexivity.
    + split; [left; reflexivity|].
      split; [left; reflexivity|].
      exists (lit "buy "), []. reflexivity.
  - apply (proj2 (proj2 (proj2
             (filtered_spec toLowerCase_ascii (setQuery (lit "   ") ex_state)
                (or_introl eq_refl))))
             eq_refl eq_refl
             (mkTask (lit "2") (lit "Call mom") true 1700000000500%Z)).
Defined.

(* ================================================================== *)
(** * The invariant of the task list *)
(* ================================================================== *)

Lemma wf_tasks_nil : wf_tasks [].
Proof. split; constructor. Qed.

Lemma wf_tasks_filter (f : Task -> bool) (l : list Task) :
  wf_tasks l -> wf_tasks (List.filter f l).
Proof.
  intros [T I]. split; [now apply Forall_filter_keeps | now apply NoDup_ids_filter].
Qed.

(** A [map] that keeps the ids and leaves no blank text keeps the
    invariant. *)
Lemma wf_tasks_map (f : Task -> Task) (l : list Task) :
  (forall t, id (f t) = id t) ->
  (forall t, blank (text t) = false -> blank (text (f t)) = false) ->
  wf_tasks l -> wf_tasks (List.map f l).
Proof.
  intros Hid Htext [T I]. split.
  - now apply Forall_map_keeps.
  - now rewrite map_id_same.
Qed.

(** One event keeps the invariant, when the id it draws is fresh. *)
Lemma wf_tasks_handle (e : Event) (st : TodoApp) :
  fresh_ids [e] st = true -> wf_tasks (tasks st) ->
  wf_tasks (tasks (handle e st)).
Proof.
  intros F W. destruct e as [s|d|i|i| |i|s| | |f|q]; simpl; try exact W.
  - (* addTask *)
    unfold addTask. simpl in F. rewrite andb_true_r in F.
    destruct (falsy (trim (input st))) eqn:E; [exact W|].
    simpl in F. apply negb_true_iff in F. simpl.
    destruct W as [T I]. split; simpl.
    + constructor; [|exact T]. simpl.
      apply trim_not_blank. now apply falsy_cons.
    + constructor; [|exact I].
      intros Hin. apply has_id_In in Hin. congruence.
  - (* toggleTask *)
    apply wf_tasks_map; [| |exact W]; intros t;
      destruct (str_eqb (id t) i); auto.
  - (* deleteTask *)
    now apply wf_tasks_filter.
  - (* clearCompleted *)
    now apply wf_tasks_filter.
  - (* startEdit *)
    unfold startEdit. now destruct (List.find _ _).
  - (* saveEdit *)
    unfold saveEdit.
    destruct (falsy (trim (editingText st))) eqn:E; [exact W|]. simpl.
    apply wf_tasks_map; [| |exact W]; intros t;
      destruct (id_is (editingId st) t); auto.
    intros _. simpl. apply trim_not_blank. now apply falsy_cons.
Qed.

Lemma wf_tasks_run (evs : list Event) (st : TodoApp) :
  fresh_ids evs st = true -> wf_tasks (tasks st) ->
  wf_tasks (tasks (run evs st)).
Proof.
  revert st. induction evs as [|e evs IH]; intros st F W; [exact W|].
  simpl in F. apply andb_true_iff in F as [Fe F].
  simpl. apply IH; [exact F|].
  apply wf_tasks_handle; [|exact W]. simpl. now rewrite Fe.
Qed.

(** C4: from the empty list, after any sequence of [add], [toggle], [edit],
    [delete] and [clearCompleted] along which the generator draws fresh
    ids, no text in the list is blank and no two tasks share an id. *)
Theorem task_list_invariant (ops : list Op) :
  fresh_ids (flat_map events_of ops) (initialState []) = true ->
  wf_tasks (tasks (run (flat_map events_of ops) (initialState []))).
Proof.
  intros F. apply wf_tasks_run; [exact F | apply wf_tasks_nil].
Qed.

Lemma task_list_invariant_witness :
  wf_tasks
    (tasks
       (run
          (flat_map events_of
             [Add (lit " Buy milk ") (mkDraw 1700000000000 (lit "a1b2c3") 1700000000000);
              Add (lit "   ") (mkDraw 1700000000200 (lit "zzzzzz") 1700000000200);
              Add (lit "Call mom") (mkDraw 1700000000500 (lit "k3x9qa") 1700000000500);
              Toggle (lit "1700000000500_k3x9qa");
              Edit (lit "1700000000000_a1b2c3") (lit "Buy oat milk");
              Edit (lit "1700000000000_a1b2c3") (lit "  ");
              Delete (lit "1700000000500_k3x9qa");
              ClearCompletedOp])
          (initialState []))).
Proof.
  apply task_list_invariant. vm_compute. reflexivity.
Defined.

(* ================================================================== *)
(** * JSON: what [JSON.parse] reads back from [JSON.stringify] *)
(* ================================================================== *)

(** Decide the tests on the character the parser is looking at. *)
Ltac read_char :=
  cbn [skip_ws];
  repeat match goal with
    | |- context [isJSONWhiteSpace ?c] =>
        let v := eval vm_compute in (isJSONWhiteSpace c) in
        lazymatch v with
        | true => change (isJSONWhiteSpace c) with true
        | false => change (isJSONWhiteSpace c) with false
        end
    | |- context [N.eqb ?a ?b] =>
        let v := eval vm_compute in (N.eqb a b) in
        lazymatch v with
        | true => change (N.eqb a b) with true
        | false => change (N.eqb a b) with false
        end
    end;
  cbv iota.

(** ** Strings *)

Lemma hex_value_digit (n : N) : n < 16 -> hex_value (hex_digit n) = Some n.
Proof.
  intros H. unfold hex_digit, hex_value.
  destruct (N.ltb_spec n 10).
  - replace ((48 <=? 48 + n) && (48 + n <=? 57)) with true.
    + f_equal. lia.
    + symmetry. apply andb_true_iff. split; apply N.leb_le; lia.
  - replace ((48 <=? 87 + n) && (87 + n <=? 57)) with false.
    + replace ((97 <=? 87 + n) && (87 + n <=? 102)) with true.
      * f_equal. lia.
      * symmetry. apply andb_true_iff. split; apply N.leb_le; lia.
    + symmetry. apply andb_false_iff. right. apply N.leb_gt. lia.
Qed.

Lemma hex4_escape (c : N) :
  c < 65536 ->
  hex4 (hex_digit (c / 4096 mod 16)) (hex_digit (c / 256 mod 16))
       (hex_digit (c / 16 mod 16)) (hex_digit (c mod 16))
  = Some c.
Proof.
  intros H. unfold hex4.
  rewrite !hex_value_digit by (apply N.mod_lt; discriminate).
  f_equal.
  replace (c / 256) with (c / 16 / 16)
    by (rewrite N.Div0.div_div; reflexivity).
  replace (c / 4096) with (c / 16 / 16 / 16)
    by (rewrite !N.Div0.div_div; reflexivity).
  assert (c / 16 / 16 / 16 < 16) as H4.
  { rewrite !N.Div0.div_div. apply N.Div0.div_lt_upper_bound. exact H. }
  rewrite (N.mod_small _ 16 H4).
  pose proof (N.div_mod c 16 ltac:(discriminate)) as E1.
  pose proof (N.div_mod (c / 16) 16 ltac:(discriminate)) as E2.
  pose proof (N.div_mod (c / 16 / 16) 16 ltac:(discriminate)) as E3.
  lia.
Qed.

Lemma parse_chars_literal (c : N) (r : jsstring) :
  c <> 34 -> c <> 92 -> 32 <= c ->
  parse_chars (c :: r) =
  match parse_chars r with
  | Some (x, rest) => Some (c :: x, rest)
  | None => None
  end.
Proof.
  intros H1 H2 H3. cbn [parse_chars].
  apply N.eqb_neq in H1, H2. apply N.ltb_ge in H3.
  now rewrite H1, H2, H3.
Qed.

Lemma parse_chars_escape (e u : N) (r : jsstring) :
  e <> 117 -> unescape e = Some u ->
  parse_chars (92 :: e :: r) =
  match parse_chars r with
  | Some (x, rest) => Some (u :: x, rest)
  | None => None
  end.
Proof.
  intros H1 H2. apply N.eqb_neq in H1.
  cbn [parse_chars]. rewrite H1. read_char. now rewrite H2.
Qed.

Lemma parse_chars_unicode (c : N) (r : jsstring) :
  c < 65536 ->
  parse_chars (UnicodeEscape c ++ r) =
  match parse_chars r with
  | Some (x, rest) => Some (c :: x, rest)
  | None => None
  end.
Proof.
  intros H. unfold UnicodeEscape. cbn [app parse_chars]. read_char.
  now rewrite (hex4_escape c H).
Qed.

Lemma parse_chars_quote_unit (c : N) (r : jsstring) :
  parse_chars (quote_unit c ++ r) =
  match parse_chars r with
  | Some (x, rest) => Some (c :: x, rest)
  | None => None
  end.
Proof.
  unfold quote_unit.
  destruct (N.eqb_spec c 8) as [->|H8];
    [now apply (parse_chars_escape 98 8)|].
  destruct (N.eqb_spec c 9) as [->|H9];
    [now apply (parse_chars_escape 116 9)|].
  destruct (N.eqb_spec c 10) as [->|H10];
    [now apply (parse_chars_escape 110 10)|].
  destruct (N.eqb_spec c 12) as [->|H12];
    [now apply (parse_chars_escape 102 12)|].
  destruct (N.eqb_spec c 13) as [->|H13];
    [now apply (parse_chars_escape 114 13)|].
  destruct (N.eqb_spec c 34) as [->|H34];
    [now apply (parse_chars_escape 34 34)|].
  destruct (N.eqb_spec c 92) as [->|H92];
    [now apply (parse_chars_escape 92 92)|].
  destruct (N.ltb_spec c 32) as [Hlt|Hge].
  - apply parse_chars_unicode. lia.
  - now apply parse_chars_literal.
Qed.

Lemma surrogate_range (c : N) :
  isLeadingSurrogate c = true \/ isTrailingSurrogate c = true ->
  c <> 34 /\ c <> 92 /\ 32 <= c /\ c < 65536.
Proof.
  unfold isLeadingSurrogate, isTrailingSurrogate.
  intros [H|H]; apply andb_true_iff in H as [H1 H2];
    apply N.leb_le in H1, H2; lia.
Qed.

Lemma parse_chars_quote_units_bounded (n : nat) :
  forall s rest,
    (length s <= n)%nat ->
    parse_chars (quote_units s ++ 34 :: rest) = Some (s, rest).
Proof.
  induction n as [|n IH]; intros s rest Hlen.
  - destruct s; [reflexivity | simpl in Hlen; lia].
  - destruct s as [|c s']; [reflexivity|]. simpl in Hlen.
    cbn [quote_units].
    destruct (isLeadingSurrogate c) eqn:Lc.
    + destruct (surrogate_range c (or_introl Lc)) as (C1 & C2 & C3 & C4).
      destruct s' as [|d s''].
      * now rewrite parse_chars_unicode.
      * destruct (isTrailingSurrogate d) eqn:Td.
        -- destruct (surrogate_range d (or_intror Td)) as (D1 & D2 & D3 & _).
           cbn [app]. rewrite !parse_chars_literal by assumption.
           rewrite IH by (simpl in Hlen; lia). reflexivity.
        -- rewrite <- app_assoc, parse_chars_unicode by assumption.
           rewrite IH by lia. reflexivity.
    + destruct (isTrailingSurrogate c) eqn:Tc.
      * destruct (surrogate_range c (or_intror Tc)) as (_ & _ & _ & C4).
        rewrite <- app_assoc, parse_chars_unicode by assumption.
        rewrite IH by lia. reflexivity.
      * rewrite <- app_assoc, parse_chars_quote_unit.
        rewrite IH by lia. reflexivity.
Qed.

(** The parser reads a quoted string back, whatever follows it. *)
Lemma parse_chars_quote_units (s rest : jsstring) :
  parse_chars (quote_units s ++ 34 :: rest) = Some (s, rest).
Proof. now apply (parse_chars_quote_units_bounded (length s)). Qed.

(** ** Numbers *)

Lemma chars_uint_chars (u : Decimal.uint) : chars_uint (uint_chars u) = u.
Proof. induction u; simpl; unfold digit_uint; simpl; congruence. Qed.

Lemma span_digits_uint_chars (u : Decimal.uint) (rest : jsstring) :
  ends_number rest = true ->
  span_digits (uint_chars u ++ rest) = (uint_chars u, rest).
Proof.
  intros H. induction u; simpl; try (rewrite IHu; reflexivity).
  destruct rest as [|c r]; [reflexivity|]. simpl in *.
  destruct (isDigit c); [discriminate H | reflexivity].
Qed.

Lemma nzhead_no_leading_zero (u : Decimal.uint) :
  match Decimal.nzhead u with
  | Decimal.D0 _ => False
  | _ => True
  end.
Proof. induction u; simpl; auto. Qed.

Lemma int_ok_to_uint (n : N) : int_ok (uint_chars (N.to_uint n)) = true.
Proof.
  rewrite <- (DecimalN.Unsigned.of_to n) at 1.
  rewrite DecimalN.Unsigned.to_of. unfold Decimal.unorm.
  pose proof (nzhead_no_leading_zero (N.to_uint n)) as H.
  destruct (Decimal.nzhead (N.to_uint n)); try reflexivity. contradiction.
Qed.

Lemma take_frac_end (rest : jsstring) :
  ends_number rest = true -> take_frac rest = Some ([], rest).
Proof.
  destruct rest as [|c r]; [reflexivity|]. simpl. intros H.
  destruct (c =? 46); [|reflexivity].
  rewrite andb_false_r in H. discriminate H.
Qed.

Lemma take_exp_end (rest : jsstring) :
  ends_number rest = true -> take_exp rest = Some ([], rest).
Proof.
  destruct rest as [|c r]; [reflexivity|]. simpl. intros H.
  destruct (c =? 101), (c =? 69); try reflexivity;
    rewrite ?andb_false_r in H; discriminate H.
Qed.

Lemma parse_unsigned_to_uint (neg : bool) (n : N) (rest : jsstring) :
  ends_number rest = true ->
  parse_unsigned neg (uint_chars (N.to_uint n) ++ rest)
  = Some (JNum (if neg then Z.opp (Z.of_N n) else Z.of_N n), rest).
Proof.
  intros H. unfold parse_unsigned.
  rewrite (span_digits_uint_chars _ _ H), int_ok_to_uint.
  rewrite (take_frac_end _ H), (take_exp_end _ H). simpl.
  now rewrite chars_uint_chars, DecimalN.Unsigned.of_to.
Qed.

Lemma uint_chars_head (u : Decimal.uint) (rest : jsstring) :
  u <> Decimal.Nil ->
  exists c r, uint_chars u ++ rest = c :: r /\ (c =? 45) = false.
Proof.
  destruct u; [congruence| | | | | | | | | |]; intros _; simpl;
    eexists; eexists; (split; [reflexivity|reflexivity]).
Qed.

Lemma to_uint_not_nil (n : N) : N.to_uint n <> Decimal.Nil.
Proof.
  destruct n as [|p]; [discriminate|].
  apply DecimalPos.Unsigned.to_uint_nonnil.
Qed.

(** The parser reads an integral Number back. *)
Lemma parse_number_toString (z : Z) (rest : jsstring) :
  ends_number rest = true ->
  parse_number (Number_toString z ++ rest) = Some (JNum z, rest).
Proof.
  intros H.
  assert (forall n,
            parse_number (uint_chars (N.to_uint n) ++ rest)
            = Some (JNum (Z.of_N n), rest)) as Hpos.
  { intros n. unfold parse_number.
    destruct (uint_chars_head (N.to_uint n) rest (to_uint_not_nil n))
      as (c & r & E & Hc).
    rewrite E, Hc, <- E. exact (parse_unsigned_to_uint false n rest H). }
  destruct z as [|p|p]; unfold Number_toString.
  - exact (Hpos 0).
  - exact (Hpos (Npos p)).
  - simpl app. unfold parse_number. read_char.
    exact (parse_unsigned_to_uint true (Npos p) rest H).
Qed.

(** ** Values *)

Lemma parse_value_string (f : nat) (s rest : jsstring) :
  parse_value (S f) (QuoteJSONString s ++ rest) = POk (JStr s) rest.
Proof.
  unfold QuoteJSONString. cbn [parse_value app]. read_char.
  rewrite <- app_assoc. cbn [app].
  now rewrite parse_chars_quote_units.
Qed.

Lemma parse_value_bool (f : nat) (b : bool) (rest : jsstring) :
  parse_value (S f) (JSON_stringify (JBool b) ++ rest) = POk (JBool b) rest.
Proof. destruct b; reflexivity. Qed.

Lemma Number_toString_head (z : Z) (rest : jsstring) :
  exists c r,
    Number_toString z ++ rest = c :: r
    /\ ((c =? 45) || isDigit c) = true.
Proof.
  assert (forall n, exists c r,
            uint_chars (N.to_uint n) ++ rest = c :: r
            /\ ((c =? 45) || isDigit c) = true) as H.
  { intros n. pose proof (to_uint_not_nil n) as Hn.
    pose proof (uint_chars_digits (N.to_uint n)) as D.
    destruct (N.to_uint n); [congruence| | | | | | | | | |];
      simpl; eexists; eexists; (split; [reflexivity|reflexivity]). }
  destruct z as [|p|p]; unfold Number_toString.
  - apply (H 0).
  - apply (H (Npos p)).
  - simpl. eexists; eexists. split; reflexivity.
Qed.

Lemma parse_value_number (f : nat) (z : Z) (rest : jsstring) :
  ends_number rest = true ->
  parse_value (S f) (Number_toString z ++ rest) = POk (JNum z) rest.
Proof.
  intros H. pose proof (parse_number_toString z rest H) as P.
  destruct (Number_toString_head z rest) as (c & r & E & Hc).
  rewrite E in *. cbn [parse_value skip_ws].
  assert (isJSONWhiteSpace c = false /\ (c =? 123) = false
          /\ (c =? 91) = false /\ (c =? 34) = false /\ (c =? 116) = false
          /\ (c =? 102) = false /\ (c =? 110) = false)
    as (W & C1 & C2 & C3 & C4 & C5 & C6).
  { unfold isJSONWhiteSpace, isDigit in *.
    apply orb_true_iff in Hc as [Hc|Hc].
    - apply N.eqb_eq in Hc. subst c. repeat split; reflexivity.
    - apply andb_true_iff in Hc as [H1 H2]. apply N.leb_le in H1, H2.
      repeat split; rewrite ?orb_false_iff; repeat split;
        apply N.eqb_neq; lia. }
  rewrite W, C1, C2, C3, C4, C5, C6, P. reflexivity.
Qed.

(** One member of an object: the key, the colon, the value, and then what
    the character after the value decides. *)
Lemma parse_members_member (f : nat) (k s3 s4 : jsstring) (v : json) :
  parse_value f s3 = POk v s4 ->
  parse_members (S f) (QuoteJSONString k ++ 58 :: s3) =
  match skip_ws s4 with
  | [] => PSyntaxError
  | d :: s5 =>
      if d =? 44 then
        match parse_members f s5 with
        | POk ms r => POk ((k, v) :: ms) r
        | PSyntaxError => PSyntaxError
        | POutOfFuel => POutOfFuel
        end
      else if d =? 125 then POk [(k, v)] s5
      else PSyntaxError
  end.
Proof.
  intros H. unfold QuoteJSONString. cbn [parse_members app]. read_char.
  rewrite <- app_assoc. cbn [app].
  rewrite parse_chars_quote_units. read_char.
  now rewrite H.
Qed.

(** The text of a task, member by member. *)
Lemma JSON_stringify_task (t : Task) (rest : jsstring) :
  JSON_stringify (json_of_task t) ++ rest =
  123 :: QuoteJSONString (lit "id") ++ 58 ::
    (QuoteJSONString (id t) ++ 44 ::
       (QuoteJSONString (lit "text") ++ 58 ::
          (QuoteJSONString (text t) ++ 44 ::
             (QuoteJSONString (lit "completed") ++ 58 ::
                (JSON_stringify (JBool (completed t)) ++ 44 ::
                   (QuoteJSONString (lit "createdAt") ++ 58 ::
                      (Number_toString (createdAt t) ++ 125 :: rest))))))).
Proof.
  unfold json_of_task. cbn [JSON_stringify List.map join_comma fst snd].
  cbn [app]. f_equal.
  repeat (rewrite <- ?app_assoc; cbn [app]; try f_equal).
Qed.

Lemma parse_value_task (f : nat) (t : Task) (rest : jsstring) :
  parse_value (6 + f) (JSON_stringify (json_of_task t) ++ rest)
  = POk (json_of_task t) rest.
Proof.
  rewrite JSON_stringify_task.
  change (6 + f)%nat with (S (S (S (S (S (S f)))))).
  set (m4 := QuoteJSONString (lit "createdAt") ++ _).
  set (m3 := QuoteJSONString (lit "completed") ++ _).
  set (m2 := QuoteJSONString (lit "text") ++ _).
  set (m1 := QuoteJSONString (lit "id") ++ _).
  assert (parse_members (S (S f)) m4
          = POk [(lit "createdAt", JNum (createdAt t))] rest) as P4.
  { subst m4.
    rewrite (parse_members_member _ _ _ (125 :: rest) (JNum (createdAt t)));
      [reflexivity | now apply parse_value_number]. }
  assert (parse_members (S (S (S f))) m3
          = POk [(lit "completed", JBool (completed t));
                 (lit "createdAt", JNum (createdAt t))] rest) as P3.
  { subst m3.
    rewrite (parse_members_member _ _ _ (44 :: m4) (JBool (completed t)));
      [|apply parse_value_bool].
    read_char. now rewrite P4. }
  assert (parse_members (S (S (S (S f)))) m2
          = POk [(lit "text", JStr (text t));
                 (lit "completed", JBool (completed t));
                 (lit "createdAt", JNum (createdAt t))] rest) as P2.
  { subst m2.
    rewrite (parse_members_member _ _ _ (44 :: m3) (JStr (text t)));
      [|apply parse_value_string].
    read_char. now rewrite P3. }
  assert (parse_members (S (S (S (S (S f))))) m1
          = POk [(lit "id", JStr (id t));
                 (lit "text", JStr (text t));
                 (lit "completed", JBool (completed t));
                 (lit "createdAt", JNum (createdAt t))] rest) as P1.
  { subst m1.
    rewrite (parse_members_member _ _ _ (44 :: m2) (JStr (id t)));
      [|apply parse_value_string].
    read_char. now rewrite P2. }
  cbn [parse_value]. read_char.
  assert (exists r1, m1 = 34 :: r1) as [r1 E1] by (now eexists).
  rewrite E1 at 1. read_char.
  now rewrite P1.
Qed.

Lemma JSON_stringify_task_head (t : Task) (rest : jsstring) :
  exists r, JSON_stringify (json_of_task t) ++ rest = 123 :: r.
Proof. rewrite JSON_stringify_task. now eexists. Qed.

(** The elements of a list of tasks, up to the closing bracket. *)
Lemma parse_elements_tasks (t : Task) (l : list Task) :
  forall (f : nat) (rest : jsstring),
    parse_elements (length (t :: l) + 6 + f)
      (join_comma (List.map JSON_stringify (List.map json_of_task (t :: l)))
       ++ 93 :: rest)
    = POk (List.map json_of_task (t :: l)) rest.
Proof.
  revert t. induction l as [|u l IH]; intros t f rest.
  - cbn [List.map join_comma length].
    change (1 + 6 + f)%nat with (S (6 + f)). cbn [parse_elements].
    rewrite parse_value_task. read_char. reflexivity.
  - change (List.map json_of_task (t :: u :: l))
      with (json_of_task t :: List.map json_of_task (u :: l)).
    change (List.map JSON_stringify (json_of_task t :: List.map json_of_task (u :: l)))
      with (JSON_stringify (json_of_task t)
              :: List.map JSON_stringify (List.map json_of_task (u :: l))).
    set (tl := List.map JSON_stringify (List.map json_of_task (u :: l))) in *.
    assert (join_comma (JSON_stringify (json_of_task t) :: tl)
            = JSON_stringify (json_of_task t) ++ 44 :: join_comma tl) as E
      by reflexivity.
    rewrite E, <- app_assoc. cbn [app].
    replace (length (t :: u :: l) + 6 + f)%nat
      with (S (6 + (length (u :: l) + f)))%nat by (simpl; lia).
    cbn [parse_elements]. rewrite parse_value_task. read_char.
    replace (6 + (length (u :: l) + f))%nat
      with (length (u :: l) + 6 + f)%nat by lia.
    subst tl. now rewrite IH.
Qed.

(** The text of a list of tasks is read back with any fuel from the
    length of the list plus seven on. *)
Lemma parse_value_tasks (l : list Task) (f : nat) (rest : jsstring) :
  parse_value (length l + 7 + f) (JSON_stringify (json_of_tasks l) ++ rest)
  = POk (json_of_tasks l) rest.
Proof.
  unfold json_of_tasks. cbn [JSON_stringify].
  rewrite <- app_comm_cons, <- app_assoc. cbn [app].
  destruct l as [|t l]; [reflexivity|].
  replace (length (t :: l) + 7 + f)%nat
    with (S (length (t :: l) + 6 + f))%nat by lia.
  cbn [parse_value]. read_char.
  rewrite parse_elements_tasks.
  assert (exists r',
            join_comma
              (List.map JSON_stringify (List.map json_of_task (t :: l)))
            ++ 93 :: rest = 123 :: r') as [r' E'].
  { cbn [List.map join_comma].
    destruct (List.map JSON_stringify (List.map json_of_task l)) as [|y ys].
    - exact (JSON_stringify_task_head t (93 :: rest)).
    - rewrite <- app_assoc.
      exact (JSON_stringify_task_head t _). }
  rewrite E'. read_char. reflexivity.
Qed.

Lemma join_comma_length (xs : list jsstring) :
  Forall (fun x => (2 <= length x)%nat) xs ->
  (2 * length xs <= length (join_comma xs))%nat.
Proof.
  induction 1 as [|x xs Hx _ IH]; [simpl; lia|].
  destruct xs as [|y ys]; [simpl in *; lia|].
  change (join_comma (x :: y :: ys)) with (x ++ 44 :: join_comma (y :: ys)).
  rewrite length_app. simpl length in *. lia.
Qed.

Lemma JSON_stringify_tasks_length (l : list Task) :
  (2 * length l + 2 <= length (JSON_stringify (json_of_tasks l)))%nat.
Proof.
  unfold json_of_tasks. cbn [JSON_stringify].
  simpl length. rewrite length_app. simpl length.
  pose proof (join_comma_length
                (List.map JSON_stringify (List.map json_of_task l))) as H.
  rewrite !List.length_map in H.
  assert (Forall (fun x => (2 <= length x)%nat)
            (List.map JSON_stringify (List.map json_of_task l))) as F.
  { clear H. induction l as [|t l IH]; cbn [List.map]; constructor;
      [|exact IH].
    pose proof (JSON_stringify_task t []) as E. rewrite List.app_nil_r in E.
    rewrite E. unfold QuoteJSONString. simpl length. lia. }
  specialize (H F). lia.
Qed.

(** [JSON.parse] undoes [JSON.stringify] on every list of tasks. *)
Lemma JSON_parse_stringify_tasks (l : list Task) :
  JSON_parse (JSON_stringify (json_of_tasks l)) = Normal (json_of_tasks l).
Proof.
  destruct l as [|t0 l0]; [reflexivity|].
  set (l := t0 :: l0). assert (0 < length l)%nat as Hpos by (simpl; lia).
  clearbody l. unfold JSON_parse.
  pose proof (JSON_stringify_tasks_length l) as Hlen.
  pose proof (parse_value_tasks l
                (S (2 * length (JSON_stringify (json_of_tasks l)))
                 - (length l + 7)) []) as P.
  rewrite List.app_nil_r in P.
  replace (length l + 7
           + (S (2 * length (JSON_stringify (json_of_tasks l)))
              - (length l + 7)))%nat
    with (S (2 * length (JSON_stringify (json_of_tasks l)))) in P.
  - now rewrite P.
  - lia.
Qed.

Lemma JSON_stringify_tasks_truthy (l : list Task) :
  falsy (JSON_stringify (json_of_tasks l)) = false.
Proof. reflexivity. Qed.

Lemma json_of_tasks_inj (l l' : list Task) :
  json_of_tasks l = json_of_tasks l' -> l = l'.
Proof.
  unfold json_of_tasks. intros [= E]. revert l' E.
  induction l as [|t l IH]; intros [|t' l'] E; try discriminate E;
    [reflexivity|].
  simpl in E. injection E as E1 E2 E3 E4 E5.
  destruct t, t'; simpl in *; subst. f_equal. now apply IH.
Qed.

(* ================================================================== *)
(** * Persistence *)
(* ================================================================== *)

Lemma getItem_setItem (key val : jsstring) (st st' : Storage) :
  setItem key val st = Normal st' -> getItem key st' = Normal (Some val).
Proof.
  unfold setItem, getItem.
  destruct (accessible st); [|discriminate].
  destruct (storage_size _ <=? quota st)%nat; [|discriminate].
  intros [= <-]. simpl. now rewrite lookup_insert_eq.
Qed.

Lemma useLocalStorage_init_cases (key : jsstring) (initialValue : json)
    (st : Storage) :
  useLocalStorage_init key initialValue st =
  match getItem key st with
  | Throw => Normal initialValue
  | Normal None => Normal initialValue
  | Normal (Some raw) =>
      if falsy raw then Normal initialValue
      else
        match JSON_parse raw with
        | Normal v => Normal v
        | Throw => Normal initialValue
        end
  end.
Proof.
  unfold useLocalStorage_init.
  destruct (getItem key st) as [[raw|]|]; simpl; try reflexivity.
  destruct (falsy raw); [reflexivity|]. now destruct (JSON_parse raw).
Qed.

(** C3: when the write of the list [l] succeeds, the effect leaves the
    storage written, and [load] on it gives the value of [l] and of no
    other list; [JSON.parse] after [JSON.stringify] is the identity on
    lists of tasks. *)
Theorem load_after_persist (l : list Task) (st st' : Storage) :
  setItem storageKey (JSON_stringify (json_of_tasks l)) st = Normal st' ->
  persist l st = Normal st'
  /\ load st' = Normal (json_of_tasks l)
  /\ (forall l', load st' = Normal (json_of_tasks l') -> l' = l)
  /\ JSON_parse (JSON_stringify (json_of_tasks l)) = Normal (json_of_tasks l).
Proof.
  intros W.
  assert (load st' = Normal (json_of_tasks l)) as L.
  { unfold load. rewrite useLocalStorage_init_cases.
    rewrite (getItem_setItem _ _ _ _ W), JSON_stringify_tasks_truthy.
    now rewrite JSON_parse_stringify_tasks. }
  split; [|split; [|split]].
  - unfold persist, useLocalStorage_effect. now rewrite W.
  - exact L.
  - intros l' L'. rewrite L in L'. apply json_of_tasks_inj. congruence.
  - apply JSON_parse_stringify_tasks.
Qed.

Lemma load_after_persist_witness :
  load ex_storage_written = Normal (json_of_tasks ex_tasks).
Proof.
  apply (load_after_persist ex_tasks ex_storage ex_storage_written).
  vm_compute. reflexivity.
Defined.

(** C9, as it is worded, fails: a stored [null] is valid JSON and no array
    of tasks, and [load] gives [null], not the empty list. *)
Lemma load_wrong_shape_counterexample :
  getItem storageKey ex_storage_null = Normal (Some (lit "null"))
  /\ ~ parses_as_task_array (lit "null")
  /\ load ex_storage_null = Normal JNull
  /\ load ex_storage_null <> Normal (JArr []).
Proof.
  assert (load ex_storage_null = Normal JNull) as L by (vm_compute; reflexivity).
  split; [|split; [|split]].
  - vm_compute. reflexivity.
  - intros [l H]. change (JSON_parse (lit "null")) with (Normal JNull) in H.
    discriminate H.
  - exact L.
  - rewrite L. discriminate.
Qed.

(** C9, amended: [load] always completes normally; it gives the empty list
    when the storage cannot be read, when nothing is stored, when the empty
    string is stored and when the stored string is not JSON; and it gives
    the parsed value, whatever its shape, when the stored string is
    JSON. *)
Theorem load_total (st : Storage) :
  (exists v, load st = Normal v)
  /\ (getItem storageKey st = Throw -> load st = Normal (JArr []))
  /\ (getItem storageKey st = Normal None -> load st = Normal (JArr []))
  /\ (forall raw,
        getItem storageKey st = Normal (Some raw) ->
        (raw = [] \/ JSON_parse raw = Throw -> load st = Normal (JArr []))
        /\ (forall v,
              raw <> [] -> JSON_parse raw = Normal v -> load st = Normal v)).
Proof.
  unfold load. rewrite useLocalStorage_init_cases.
  destruct (getItem storageKey st) as [[raw|]|] eqn:G.
  - split; [|split; [discriminate|split; [discriminate|]]].
    + destruct (falsy raw); [now eexists|].
      destruct (JSON_parse raw); now eexists.
    + intros raw' [= <-]. split.
      * intros [->|P]; [reflexivity|]. rewrite P. now destruct (falsy raw).
      * intros v Hne P. apply falsy_cons in Hne. now rewrite Hne, P.
  - split; [now eexists|]. split; [discriminate|].
    split; [reflexivity | discriminate].
  - split; [now eexists|]. split; [reflexivity|].
    split; [discriminate | discriminate].
Qed.

Lemma load_total_witness :
  load ex_storage_denied = Normal (JArr [])
  /\ load ex_storage = Normal (JArr [])
  /\ load ex_storage_garbage = Normal (JArr [])
  /\ load ex_storage_null = Normal JNull.
Proof.
  split; [|split; [|split]].
  - apply (proj1 (proj2 (load_total ex_storage_denied))). reflexivity.
  - apply (proj1 (proj2 (proj2 (load_total ex_storage)))). reflexivity.
  - apply (proj1 (proj2 (proj2 (proj2 (load_total ex_storage_garbage)))
                    (lit "[{oops") ltac:(vm_compute; reflexivity))).
    right. vm_compute. reflexivity.
  - apply (proj2 (proj2 (proj2 (proj2 (load_total ex_storage_null)))
                    (lit "null") ltac:(vm_compute; reflexivity))).
    + discriminate.
    + vm_compute. reflexivity.
Defined.

(* ================================================================== *)
(** * JSON: the fuel of the parser is enough *)
(* ================================================================== *)

Lemma skip_ws_length (s : jsstring) : (length (skip_ws s) <= length s)%nat.
Proof.
  induction s as [|c s IH]; simpl; [lia|].
  destruct (isJSONWhiteSpace c); simpl; lia.
Qed.

Lemma skip_ws_cons_length (s : jsstring) (c : N) (r : jsstring) :
  skip_ws s = c :: r -> (length r < length s)%nat.
Proof.
  intros E. pose proof (skip_ws_length s) as H. rewrite E in H. simpl in H. lia.
Qed.

Lemma parse_chars_length (s x r : jsstring) :
  parse_chars s = Some (x, r) -> (length r < length s)%nat.
Proof.
  assert (forall n s x r,
            (length s <= n)%nat -> parse_chars s = Some (x, r) ->
            (length r < length s)%nat) as H.
  { clear. induction n as [|n IH]; intros s x r Hn.
    - destruct s; [discriminate | simpl in Hn; lia].
    - destruct s as [|c s1]; [discriminate|]. cbn [parse_chars].
      simpl in Hn.
      destruct (c =? 34); [intros [= <- <-]; simpl; lia|].
      destruct (c =? 92).
      + destruct s1 as [|e s2]; [discriminate|].
        destruct (e =? 117).
        * destruct s2 as [|h1 [|h2 [|h3 [|h4 s3]]]]; try discriminate.
          destruct (hex4 h1 h2 h3 h4); [|discriminate].
          destruct (parse_chars s3) as [[y r']|] eqn:P; [|discriminate].
          intros [= <- <-]. apply IH in P; simpl in *; lia.
        * destruct (unescape e); [|discriminate].
          destruct (parse_chars s2) as [[y r']|] eqn:P; [|discriminate].
          intros [= <- <-]. apply IH in P; simpl in *; lia.
      + destruct (c <? 32); [discriminate|].
        destruct (parse_chars s1) as [[y r']|] eqn:P; [|discriminate].
        intros [= <- <-]. apply IH in P; simpl in *; lia. }
  intros P. now apply (H (length s) s x r).
Qed.

Lemma span_digits_length (s ds r : jsstring) :
  span_digits s = (ds, r) -> length s = (length ds + length r)%nat.
Proof.
  revert ds r. induction s as [|c s IH]; simpl; intros ds r.
  - intros [= <- <-]. reflexivity.
  - destruct (isDigit c).
    + destruct (span_digits s) as [ds' r'] eqn:E. intros [= <- <-].
      simpl. now rewrite (IH ds' r').
    + intros [= <- <-]. reflexivity.
Qed.

Lemma take_frac_length (s fr r : jsstring) :
  take_frac s = Some (fr, r) -> (length r <= length s)%nat.
Proof.
  unfold take_frac. destruct s as [|c s']; [intros [= <- <-]; simpl; lia|].
  destruct (c =? 46).
  - destruct (span_digits s') as [ds r'] eqn:E.
    apply span_digits_length in E. destruct (falsy ds); [discriminate|].
    intros [= <- <-]. simpl. lia.
  - intros [= <- <-]. lia.
Qed.

Lemma take_exp_length (s ex r : jsstring) :
  take_exp s = Some (ex, r) -> (length r <= length s)%nat.
Proof.
  unfold take_exp. destruct s as [|c s']; [intros [= <- <-]; simpl; lia|].
  destruct ((c =? 101) || (c =? 69)); [|intros [= <- <-]; lia].
  destruct s' as [|g s'']; [discriminate|].
  destruct ((g =? 43) || (g =? 45)).
  - destruct (span_digits s'') as [ds r'] eqn:E.
    apply span_digits_length in E. destruct (falsy ds); [discriminate|].
    intros [= <- <-]. simpl. lia.
  - destruct (span_digits (g :: s'')) as [ds r'] eqn:E.
    apply span_digits_length in E. destruct (falsy ds); [discriminate|].
    intros [= <- <-]. simpl in *. lia.
Qed.

Lemma parse_unsigned_length (neg : bool) (s : jsstring) (v : json)
    (r : jsstring) :
  parse_unsigned neg s = Some (v, r) -> (length r < length s)%nat.
Proof.
  unfold parse_unsigned.
  destruct (span_digits s) as [ip s2] eqn:E1. apply span_digits_length in E1.
  destruct ip as [|c ip']; [discriminate|]. simpl in E1.
  destruct (int_ok (c :: ip')); [|discriminate].
  destruct (take_frac s2) as [[fr s3]|] eqn:E2; [|discriminate].
  apply take_frac_length in E2.
  destruct (take_exp s3) as [[ex s4]|] eqn:E3; [|discriminate].
  apply take_exp_length in E3.
  destruct (falsy fr && falsy ex); intros [= <- <-]; lia.
Qed.

Lemma parse_number_length (s : jsstring) (v : json) (r : jsstring) :
  parse_number s = Some (v, r) -> (length r < length s)%nat.
Proof.
  unfold parse_number. destruct s as [|c s']; [discriminate|].
  destruct (c =? 45); intros P; apply parse_unsigned_length in P; simpl in *; lia.
Qed.

Lemma strip_prefix_length (p s r : jsstring) :
  p <> [] -> strip_prefix p s = Some r -> (length r < length s)%nat.
Proof.
  unfold strip_prefix. intros Hp.
  destruct (startsWith s p) eqn:E; [|discriminate].
  apply startsWith_prefix in E as [post ->]. intros [= <-].
  rewrite length_drop, length_app. destruct p; [congruence|]. simpl. lia.
Qed.

(** With more fuel than twice the length of the input (and one more for
    the two list parsers), the parser never runs out of fuel, and a value
    it reads has used some input. *)
Lemma parse_fuel (fuel : nat) :
  forall s,
    ((2 * length s < fuel)%nat -> consumes (parse_value fuel s) s)
    /\ ((2 * length s + 1 < fuel)%nat -> consumes (parse_elements fuel s) s)
    /\ ((2 * length s + 1 < fuel)%nat -> consumes (parse_members fuel s) s).
Proof.
  induction fuel as [|fuel IH]; intros s; [repeat split; lia|].
  split; [|split]; intros Hf.
  - (* parse_value *)
    cbn [parse_value].
    destruct (skip_ws s) as [|c s1] eqn:Es; [exact I|].
    apply skip_ws_cons_length in Es.
    destruct (c =? 123).
    { destruct (skip_ws s1) as [|d s2] eqn:Es1; [exact I|].
      apply skip_ws_cons_length in Es1.
      destruct (d =? 125); [simpl; lia|].
      destruct (IH s1) as (_ & _ & M).
      assert (2 * length s1 + 1 < fuel)%nat as Hf' by lia.
      specialize (M Hf').
      destruct (parse_members fuel s1); simpl in *; [lia | exact I | exact M]. }
    destruct (c =? 91).
    { destruct (skip_ws s1) as [|d s2] eqn:Es1; [exact I|].
      apply skip_ws_cons_length in Es1.
      destruct (d =? 93); [simpl; lia|].
      destruct (IH s1) as (_ & E & _).
      assert (2 * length s1 + 1 < fuel)%nat as Hf' by lia.
      specialize (E Hf').
      destruct (parse_elements fuel s1); simpl in *; [lia | exact I | exact E]. }
    destruct (c =? 34).
    { destruct (parse_chars s1) as [[str r]|] eqn:P; [|exact I].
      apply parse_chars_length in P. simpl. lia. }
    destruct (c =? 116).
    { destruct (strip_prefix (lit "true") (c :: s1)) as [r|] eqn:P; [|exact I].
      apply strip_prefix_length in P; [simpl in *; lia | discriminate]. }
    destruct (c =? 102).
    { destruct (strip_prefix (lit "false") (c :: s1)) as [r|] eqn:P; [|exact I].
      apply strip_prefix_length in P; [simpl in *; lia | discriminate]. }
    destruct (c =? 110).
    { destruct (strip_prefix (lit "null") (c :: s1)) as [r|] eqn:P; [|exact I].
      apply strip_prefix_length in P; [simpl in *; lia | discriminate]. }
    destruct (parse_number (c :: s1)) as [[v r]|] eqn:P; [|exact I].
    apply parse_number_length in P. simpl in *. lia.
  - (* parse_elements *)
    cbn [parse_elements].
    destruct (IH s) as (V & _ & _).
    assert (2 * length s < fuel)%nat as Hv by lia. specialize (V Hv).
    destruct (parse_value fuel s) as [v s1| |]; simpl in V; [|exact I|exact V].
    destruct (skip_ws s1) as [|d s2] eqn:Es1; [exact I|].
    apply skip_ws_cons_length in Es1.
    destruct (d =? 44).
    + destruct (IH s2) as (_ & E & _).
      assert (2 * length s2 + 1 < fuel)%nat as Hf' by lia.
      specialize (E Hf').
      destruct (parse_elements fuel s2); simpl in *; [lia | exact I | exact E].
    + destruct (d =? 93); [simpl; lia | exact I].
  - (* parse_members *)
    cbn [parse_members].
    destruct (skip_ws s) as [|q s1] eqn:Es; [exact I|].
    apply skip_ws_cons_length in Es.
    destruct (q =? 34); [|exact I].
    destruct (parse_chars s1) as [[k s2]|] eqn:P; [|exact I].
    apply parse_chars_length in P.
    destruct (skip_ws s2) as [|col s3] eqn:Es2; [exact I|].
    apply skip_ws_cons_length in Es2.
    destruct (col =? 58); [|exact I].
    destruct (IH s3) as (V & _ & _).
    assert (2 * length s3 < fuel)%nat as Hv by lia. specialize (V Hv).
    destruct (parse_value fuel s3) as [v s4| |]; simpl in V; [|exact I|exact V].
    destruct (skip_ws s4) as [|d s5] eqn:Es4; [exact I|].
    apply skip_ws_cons_length in Es4.
    destruct (d =? 44).
    + destruct (IH s5) as (_ & _ & M).
      assert (2 * length s5 + 1 < fuel)%nat as Hf' by lia.
      specialize (M Hf').
      destruct (parse_members fuel s5); simpl in *; [lia | exact I | exact M].
    + destruct (d =? 125); [simpl; lia | exact I].
Qed.

(** [JSON_parse] never runs out of fuel: it throws on a syntax error and
    on input left after the value, and on nothing else. *)
Lemma parse_value_fuel (s : jsstring) :
  parse_value (S (2 * length s)) s <> POutOfFuel.
Proof.
  destruct (parse_fuel (S (2 * length s)) s) as (V & _ & _).
  intros E. rewrite E in V. apply V. lia.
Qed.

(* ================================================================== *)
(** * The examples of the specification *)
(* ================================================================== *)

Example project_all_empty :
  filtered toLowerCase_ascii ex_state = ex_tasks.
Proof. reflexivity. Qed.

Example project_active_empty :
  filtered toLowerCase_ascii (setFilter (lit "active") ex_state)
  = [mkTask (lit "1") (lit "Buy milk") false 1700000000000%Z].
Proof. reflexivity. Qed.

Example project_done_empty :
  filtered toLowerCase_ascii (setFilter (lit "done") ex_state)
  = [mkTask (lit "2") (lit "Call mom") true 1700000000500%Z].
Proof. reflexivity. Qed.

Example project_all_milk :
  filtered toLowerCase_ascii (setQuery (lit "milk") ex_state)
  = [mkTask (lit "1") (lit "Buy milk") false 1700000000000%Z].
Proof. reflexivity. Qed.

Example edit_blank_discarded :
  tasks (edit (lit "1") (lit "   ") ex_state) = ex_tasks.
Proof. reflexivity. Qed.

Example newId_example :
  newId 1700000001000%Z (lit "k3x9qa") = lit "1700000001000_k3x9qa".
Proof. reflexivity. Qed.

Example JSON_parse_array :
  JSON_parse (lit " [1, -20, true, null, [], {}] ")
  = Normal (JArr [JNum 1; JNum (-20); JBool true; JNull; JArr []; JObj []]).
Proof. reflexivity. Qed.

Example JSON_parse_trailing_comma : JSON_parse (lit "[1,]") = Throw.
Proof. reflexivity. Qed.

Example JSON_parse_leading_zero : JSON_parse (lit "01") = Throw.
Proof. reflexivity. Qed.

Example JSON_roundtrip_example :
  JSON_parse (JSON_stringify (json_of_tasks ex_tasks))
  = Normal (json_of_tasks ex_tasks).
Proof. vm_compute. reflexivity. Qed.

(** A write beyond the quota throws, the effect swallows it and the
    storage stays as it was. *)
Example persist_quota_exceeded :
  setItem storageKey (JSON_stringify (json_of_tasks ex_tasks))
    (mkStorage ∅ true 10) = Throw
  /\ persist ex_tasks (mkStorage ∅ true 10) = Normal (mkStorage ∅ true 10).
Proof. split; vm_compute; reflexivity. Qed.

(** The freshness of the drawn ids is needed for the invariant: the same
    clock reading and random suffix drawn twice give two tasks with one
    id. *)
Remark same_draw_shares_id :
  ~ wf_tasks
      (tasks
         (run (flat_map events_of [Add (lit "a") ex_draw; Add (lit "b") ex_draw])
            (initialState []))).
Proof.
  intros [_ N]. simpl in N. inversion N as [|? ? Hnotin _].
  apply Hnotin. left. reflexivity.
Qed.

(* ================================================================== *)
(** * [classNames], the counter and the edit box *)
(* ================================================================== *)

Lemma join_app (sep : jsstring) (a b : list jsstring) :
  a <> [] -> b <> [] -> join sep (a ++ b) = join sep a ++ sep ++ join sep b.
Proof.
  intros Ha Hb. induction a as [|x a IH]; [congruence|].
  destruct a as [|y a].
  - destruct b as [|z b]; [congruence|]. reflexivity.
  - change (join sep ((x :: y :: a) ++ b))
      with (x ++ sep ++ join sep ((y :: a) ++ b)).
    rewrite IH by discriminate.
    change (join sep (x :: y :: a)) with (x ++ sep ++ join sep (y :: a)).
    now rewrite <- !app_assoc.
Qed.

Lemma join_truthy (sep : jsstring) (a : list jsstring) :
  Forall (fun c => falsy c = false) a -> a <> [] -> falsy (join sep a) = false.
Proof.
  intros F Ha. destruct F as [|x a Hx F]; [congruence|].
  destruct x as [|c x]; [discriminate Hx|]. now destruct a.
Qed.

Lemma truthy_filter (l : list jsstring) :
  Forall (fun c => falsy c = false) (List.filter (fun c => negb (falsy c)) l).
Proof.
  induction l as [|x l IH]; simpl; [constructor|].
  destruct (falsy x) eqn:E; simpl; [exact IH | now constructor].
Qed.

Lemma filter_truthy_id (a : list jsstring) :
  Forall (fun c => falsy c = false) a ->
  List.filter (fun c => negb (falsy c)) a = a.
Proof.
  intros F. apply filter_all. intros x Hx.
  rewrite List.Forall_forall in F. now rewrite (F x Hx).
Qed.

(** X1: [classNames] composes: the class names of two groups together are
    the class names of the two results; an empty entry changes nothing. *)
Theorem classNames_compose (l1 l2 : list jsstring) :
  classNames (l1 ++ l2) = classNames [classNames l1; classNames l2]
  /\ classNames (l1 ++ [] :: l2) = classNames (l1 ++ l2).
Proof.
  split.
  - unfold classNames. rewrite List.filter_app.
    pose proof (truthy_filter l1) as F1. pose proof (truthy_filter l2) as F2.
    set (a := List.filter _ l1) in *. set (b := List.filter _ l2) in *.
    destruct a as [|x a].
    + simpl app. cbn [List.filter falsy join negb].
      destruct b as [|y b]; [reflexivity|].
      rewrite (join_truthy _ _ F2) by discriminate. reflexivity.
    + cbn [List.filter].
      rewrite (join_truthy _ (x :: a) F1) by discriminate. cbn [negb].
      destruct b as [|y b].
      * rewrite List.app_nil_r. reflexivity.
      * rewrite (join_truthy _ (y :: b) F2) by discriminate. cbn [negb].
        now rewrite join_app by discriminate.
  - unfold classNames. now rewrite !List.filter_app.
Qed.

Lemma includes_empty (s : jsstring) : includes s [] = true.
Proof. now destruct s. Qed.

(** X2: the counter of the header is the number of rows of the Active
    view with an empty search, for a case mapping that maps the empty
    string to itself. *)
Theorem remaining_active_view (toLowerCase : jsstring -> jsstring)
    (st : TodoApp) :
  toLowerCase [] = [] ->
  remaining st
  = length (filtered toLowerCase (setQuery [] (setFilter (lit "active") st))).
Proof.
  intros Hnil. unfold remaining, filtered. simpl.
  rewrite (filter_all (query_test toLowerCase [])).
  - reflexivity.
  - intros t _. unfold query_test. change (trim []) with (@nil N).
    rewrite Hnil. apply includes_empty.
Qed.

Lemma remaining_active_view_witness :
  remaining ex_state = 1%nat.
Proof.
  rewrite (remaining_active_view toLowerCase_ascii ex_state); reflexivity.
Defined.

Lemma same_id_same_task (l : list Task) (t u : Task) :
  List.NoDup (List.map id l) -> In t l -> In u l -> id t = id u -> t = u.
Proof.
  induction l as [|x l IH]; [easy|]. simpl.
  intros N [->|Ht] [->|Hu] E; inversion N as [|? ? Hnotin N']; subst.
  - reflexivity.
  - exfalso. apply Hnotin. rewrite E. now apply in_map.
  - exfalso. apply Hnotin. rewrite <- E. now apply in_map.
  - now apply IH.
Qed.

Lemma toggle_count (i : jsstring) (l : list Task) (t : Task) :
  List.NoDup (List.map id l) -> In t l -> id t = i ->
  (length
     (List.filter (fun u => negb (completed u))
        (List.map
           (fun u =>
              if str_eqb (id u) i
              then mkTask (id u) (text u) (negb (completed u)) (createdAt u)
              else u)
           l))
   + (if completed t then 0 else 1)
   = length (List.filter (fun u => negb (completed u)) l)
     + (if completed t then 1 else 0))%nat.
Proof.
  induction l as [|x l IH]; [easy|]. intros N Ht Ei.
  inversion N as [|? ? Hnotin N']; subst. cbn [List.map List.filter].
  destruct Ht as [->|Ht].
  - rewrite str_eqb_refl. cbn [completed].
    rewrite map_unchanged.
    + destruct (completed t); simpl; lia.
    + intros u Hu. destruct (str_eqb (id u) (id t)) eqn:E; [|reflexivity].
      exfalso. apply Hnotin. apply str_eqb_eq in E. rewrite <- E.
      now apply in_map.
  - assert (str_eqb (id x) (id t) = false) as E.
    { apply str_eqb_neq. intros E. apply Hnotin. rewrite E. now apply in_map. }
    rewrite E. specialize (IH N' Ht eq_refl).
    destruct (completed x); simpl; lia.
Qed.

(** X3: with no id shared, toggling a task of the list changes the
    counter by exactly one: down for a task that was not completed, up for
    one that was. *)
Theorem remaining_toggle (i : jsstring) (st : TodoApp) (t : Task) :
  List.NoDup (List.map id (tasks st)) -> In t (tasks st) -> id t = i ->
  (remaining (toggleTask i st) + (if completed t then 0 else 1)
   = remaining st + (if completed t then 1 else 0))%nat.
Proof. intros N Ht Ei. unfold remaining. simpl. now apply toggle_count. Qed.

Lemma remaining_toggle_witness :
  remaining (toggleTask (lit "2") ex_state) = 2%nat.
Proof.
  pose proof (remaining_toggle (lit "2") ex_state
                (mkTask (lit "2") (lit "Call mom") true 1700000000500%Z)) as H.
  simpl completed in H. rewrite Nat.add_0_r in H. rewrite H.
  - reflexivity.
  - apply List.NoDup_cons; [intros [E|[]]; discriminate E|].
    apply List.NoDup_cons; [intros []|]. apply List.NoDup_nil.
  - right. left. reflexivity.
  - reflexivity.
Defined.

(** X4: [clearCompleted] keeps the counter and leaves as many tasks as the
    counter says; adding a task with a text that is not blank raises the
    counter by one; deleting never raises it. *)
Theorem remaining_clear_add_delete (st : TodoApp) :
  remaining (clearCompleted st) = remaining st
  /\ length (tasks (clearCompleted st)) = remaining st
  /\ (forall s d, trim s <> [] -> remaining (add s d st) = S (remaining st))
  /\ (forall i, (remaining (deleteTask i st) <= remaining st)%nat).
Proof.
  split; [|split; [|split]].
  - unfold remaining, clearCompleted. simpl. now rewrite filter_idem.
  - reflexivity.
  - intros s d Hs. unfold remaining. rewrite tasks_add.
    apply falsy_cons in Hs. now rewrite Hs.
  - intros i. unfold remaining, deleteTask. simpl.
    rewrite filter_filter.
    induction (tasks st) as [|t l IH]; simpl; [lia|].
    destruct (str_eqb (id t) i), (completed t); simpl; lia.
Qed.

Lemma remaining_clear_add_delete_witness :
  remaining (add (lit "Walk dog") ex_draw ex_state) = 2%nat.
Proof.
  rewrite (proj1 (proj2 (proj2 (remaining_clear_add_delete ex_state)))).
  - reflexivity.
  - vm_compute. discriminate.
Defined.

Lemma filter_none {A} (f : A -> bool) (l : list A) :
  (forall x, In x l -> f x = false) -> List.filter f l = [].
Proof.
  induction l as [|x l IH]; simpl; intros H; [reflexivity|].
  rewrite (H x) by now left. apply IH. intros y Hy. apply H. now right.
Qed.

Lemma one_row_per_id (o : option jsstring) (l : list Task) :
  List.NoDup (List.map id l) -> (length (List.filter (id_is o) l) <= 1)%nat.
Proof.
  destruct o as [j|]; [|intros _; now rewrite filter_none; [simpl; lia|]].
  induction l as [|t l IH]; simpl; [lia|]. intros N.
  inversion N as [|? ? Hnotin N']; subst.
  destruct (str_eqb (id t) j) eqn:E; [|now apply IH].
  apply str_eqb_eq in E. simpl.
  rewrite filter_none; [simpl; lia|].
  intros u Hu. apply str_eqb_neq. intros E'. apply Hnotin.
  rewrite E, <- E'. now apply in_map.
Qed.

(** X5: with no id shared, at most one row of the view is rendered as an
    edit box. *)
Theorem editBoxes_at_most_one (toLowerCase : jsstring -> jsstring)
    (st : TodoApp) :
  List.NoDup (List.map id (tasks st)) ->
  (length (editBoxes toLowerCase st) <= 1)%nat.
Proof.
  intros N. unfold editBoxes, filtered. apply one_row_per_id.
  now apply NoDup_ids_filter, NoDup_ids_filter.
Qed.

Lemma editBoxes_at_most_one_witness :
  (length (editBoxes toLowerCase_ascii (startEdit (lit "1") ex_state)) <= 1)%nat.
Proof.
  apply (editBoxes_at_most_one toLowerCase_ascii (startEdit (lit "1") ex_state)).
  apply List.NoDup_cons; [intros [E|[]]; discriminate E|].
  apply List.NoDup_cons; [intros []|]. apply List.NoDup_nil.
Defined.

(* ================================================================== *)
(** * What every run of the component keeps *)
(* ================================================================== *)

(** An invariant of the list that [filter] keeps, that a [map] keeps when
    it keeps it task by task, and that the new task of [addTask] has, is
    kept by every event. *)
Lemma Forall_handle (P : Task -> Prop) (e : Event) (st : TodoApp) :
  (forall t, P t ->
     P (mkTask (id t) (text t) (negb (completed t)) (createdAt t))) ->
  (forall t, P t -> trim (editingText st) <> [] ->
     P (mkTask (id t) (trim (editingText st)) (completed t) (createdAt t))) ->
  (forall d, e = AddTask d -> trim (input st) <> [] ->
     P (mkTask (newId (now_id d) (rand d)) (trim (input st)) false
          (now_created d))) ->
  Forall P (tasks st) -> Forall P (tasks (handle e st)).
Proof.
  intros Htoggle Hedit Hadd F.
  destruct e as [s|d|i|i| |i|s| | |f|q]; simpl; try exact F.
  - unfold addTask. destruct (falsy (trim (input st))) eqn:E; [exact F|].
    simpl. constructor; [|exact F]. apply (Hadd d eq_refl). now apply falsy_cons.
  - apply Forall_map_keeps; [|exact F]. intros t Ht.
    destruct (str_eqb (id t) i); auto.
  - now apply Forall_filter_keeps.
  - now apply Forall_filter_keeps.
  - unfold startEdit. now destruct (List.find _ _).
  - unfold saveEdit.
    destruct (falsy (trim (editingText st))) eqn:E; [exact F|]. simpl.
    apply Forall_map_keeps; [|exact F]. intros t Ht.
    destruct (id_is (editingId st) t); [|exact Ht].
    apply Hedit; [exact Ht | now apply falsy_cons].
Qed.

(** X6: no event leaves white space at the ends of a text: from a list of
    trimmed texts, every run gives a list of trimmed texts. *)
Theorem texts_trimmed (evs : list Event) (st : TodoApp) :
  Forall (fun t => trim (text t) = text t) (tasks st) ->
  Forall (fun t => trim (text t) = text t) (tasks (run evs st)).
Proof.
  revert st. induction evs as [|e evs IH]; intros st F; [exact F|].
  simpl. apply IH. apply Forall_handle; try exact F; simpl.
  - auto.
  - intros t _ _. apply trim_idem.
  - intros d _ _. apply trim_idem.
Qed.

Lemma texts_trimmed_witness :
  Forall (fun t => trim (text t) = text t)
    (tasks (run ex_events (initialState []))).
Proof. apply (texts_trimmed ex_events (initialState [])). constructor. Defined.

Lemma newId_not_empty (z : Z) (r : jsstring) : newId z r <> [].
Proof.
  unfold newId. destruct (Number_toString_head z (lit "_" ++ r))
    as (c & s & E & _).
  rewrite E. discriminate.
Qed.

(** X7: from the empty list, every id in the list is one the generator
    made, from a clock reading and a random suffix, and is not empty. *)
Theorem ids_generated (evs : list Event) (t : Task) :
  In t (tasks (run evs (initialState []))) ->
  (exists z r, id t = newId z r) /\ id t <> [].
Proof.
  assert (forall evs st,
            Forall (fun t => exists z r, id t = newId z r) (tasks st) ->
            Forall (fun t => exists z r, id t = newId z r) (tasks (run evs st)))
    as H.
  { clear. induction evs as [|e evs IH]; intros st F; [exact F|].
    simpl. apply IH. apply Forall_handle; try exact F; simpl; auto.
    intros d _ _. now exists (now_id d), (rand d). }
  intros Ht. specialize (H evs (initialState []) (List.Forall_nil _)).
  rewrite List.Forall_forall in H. destruct (H t Ht) as (z & r & E).
  split; [now exists z, r|]. rewrite E. apply newId_not_empty.
Qed.

Lemma ids_generated_witness :
  exists t, In t (tasks (run ex_events (initialState []))) /\ id t <> [].
Proof.
  exists (mkTask (lit "1700000000500_k3x9qa") (lit "Call mom") true
            1700000000500%Z).
  assert (In (mkTask (lit "1700000000500_k3x9qa") (lit "Call mom") true
                1700000000500%Z)
            (tasks (run ex_events (initialState [])))) as H
    by (left; reflexivity).
  split; [exact H|]. exact (proj2 (ids_generated ex_events _ H)).
Defined.

Lemma keys_map (f : Task -> Task) (l : list Task) :
  (forall t, id (f t) = id t /\ createdAt (f t) = createdAt t) ->
  keys (List.map f l) = keys l.
Proof.
  intros H. unfold keys. rewrite List.map_map. apply List.map_ext.
  intros t. destruct (H t) as [-> ->]. reflexivity.
Qed.

Lemma keys_filter (f : Task -> bool) (l : list Task) :
  keys (List.filter f l) `sublist_of` keys l.
Proof.
  induction l as [|t l IH]; simpl; [constructor|].
  destruct (f t); simpl; now constructor.
Qed.

(** X8: no event changes the id or the creation time of a task, or the
    order of the tasks: after an event, the ids with their creation times
    are the ones before with some removed, or the ones before after one
    new pair. *)
Theorem keys_handle (e : Event) (st : TodoApp) :
  keys (tasks (handle e st)) `sublist_of` keys (tasks st)
  \/ exists k, keys (tasks (handle e st)) = k :: keys (tasks st).
Proof.
  destruct e as [s|d|i|i| |i|s| | |f|q]; simpl; try (left; reflexivity).
  - unfold addTask. destruct (falsy (trim (input st))); [left; reflexivity|].
    right. simpl. now eexists.
  - left. rewrite keys_map; [reflexivity|].
    intros t. now destruct (str_eqb (id t) i).
  - left. apply keys_filter.
  - left. apply keys_filter.
  - left. unfold startEdit. now destruct (List.find _ _).
  - left. unfold saveEdit.
    destruct (falsy (trim (editingText st))); [reflexivity|]. simpl.
    rewrite keys_map; [reflexivity|].
    intros t. now destruct (id_is (editingId st) t).
Qed.

Lemma StronglySorted_times_filter (f : Task -> bool) (l : list Task) :
  StronglySorted Z.ge (List.map createdAt l) ->
  StronglySorted Z.ge (List.map createdAt (List.filter f l)).
Proof.
  induction l as [|t l IH]; simpl; intros S; [constructor|].
  inversion S as [|? ? S' F]; subst.
  destruct (f t); simpl; [|now apply IH].
  constructor; [now apply IH|].
  rewrite List.Forall_forall in *. intros c Hc. apply F.
  apply in_map_iff in Hc as (u & <- & Hu). apply filter_In in Hu as [Hu _].
  now apply in_map.
Qed.

Lemma times_map (f : Task -> Task) (l : list Task) :
  (forall t, createdAt (f t) = createdAt t) ->
  List.map createdAt (List.map f l) = List.map createdAt l.
Proof. intros H. rewrite List.map_map. now apply List.map_ext. Qed.

(** With a clock that never runs backwards, the creation times stay in
    order, newest first, and none is later than the last clock reading. *)
Lemma newest_first_run (evs : list Event) :
  forall (lo : Z) (st : TodoApp),
    clock_monotone lo evs ->
    StronglySorted Z.ge (List.map createdAt (tasks st)) ->
    Forall (fun c => (c <= lo)%Z) (List.map createdAt (tasks st)) ->
    StronglySorted Z.ge (List.map createdAt (tasks (run evs st))).
Proof.
  induction evs as [|e evs IH]; intros lo st C S F; [exact S|].
  assert (forall f, Forall (fun c => (c <= lo)%Z)
                      (List.map createdAt (List.filter f (tasks st)))) as Ffilter.
  { intros f. rewrite List.Forall_forall in *. intros c Hc. apply F.
    apply in_map_iff in Hc as (u & <- & Hu). apply filter_In in Hu as [Hu _].
    now apply in_map. }
  destruct e as [s|d|i|i| |i|s| | |f|q]; simpl in C |- *;
    try (now apply (IH lo)).
  - destruct C as [Hd C]. apply (IH (now_created d)); [exact C| |].
    + unfold addTask. destruct (falsy (trim (input st))); [exact S|].
      simpl. constructor; [exact S|].
      eapply List.Forall_impl; [|exact F]. simpl. lia.
    + assert (Forall (fun c => (c <= now_created d)%Z)
                (List.map createdAt (tasks st))) as F'
        by (eapply List.Forall_impl; [|exact F]; simpl; lia).
      unfold addTask. destruct (falsy (trim (input st))); [exact F'|].
      simpl. constructor; [lia | exact F'].
  - apply (IH lo); [exact C | |]; simpl; rewrite times_map; auto;
      intros t; now destruct (str_eqb (id t) i).
  - apply (IH lo); [exact C | now apply StronglySorted_times_filter | apply Ffilter].
  - apply (IH lo); [exact C | now apply StronglySorted_times_filter | apply Ffilter].
  - apply (IH lo); [exact C | |]; unfold startEdit;
      now destruct (List.find _ _).
  - apply (IH lo); [exact C | |]; unfold saveEdit;
      destruct (falsy (trim (editingText st))); simpl; auto;
      rewrite times_map; auto;
      intros t; now destruct (id_is (editingId st) t).
Qed.

(** X9: from the empty list, with a clock that never runs backwards, the
    list is in the order of the creation times, newest first. *)
Theorem newest_first (lo : Z) (evs : list Event) :
  clock_monotone lo evs ->
  StronglySorted Z.ge
    (List.map createdAt (tasks (run evs (initialState [])))).
Proof.
  intros C. apply (newest_first_run evs lo); [exact C | constructor | constructor].
Qed.

Lemma newest_first_witness :
  StronglySorted Z.ge
    (List.map createdAt (tasks (run ex_events (initialState [])))).
Proof.
  apply (newest_first 0 ex_events). simpl. lia.
Defined.

(* ================================================================== *)
(** * How the operations compose *)
(* ================================================================== *)

(** X10: deleting the task that was just added, under an id that no task
    of the list had, gives the list back. *)
Theorem add_delete (s : jsstring) (d : Draw) (st : TodoApp) :
  has_id (newId (now_id d) (rand d)) (tasks st) = false ->
  tasks (deleteTask (newId (now_id d) (rand d)) (add s d st)) = tasks st.
Proof.
  intros H. pose proof (has_id_absent _ _ H) as Hno.
  assert (List.filter
            (fun t => negb (str_eqb (id t) (newId (now_id d) (rand d))))
            (tasks st) = tasks st) as E.
  { apply filter_all. intros t Ht. now rewrite (Hno t Ht). }
  unfold deleteTask. simpl tasks at 1. rewrite tasks_add.
  destruct (falsy (trim s)); [exact E|].
  simpl. rewrite str_eqb_refl. exact E.
Qed.

Lemma add_delete_witness :
  tasks (deleteTask (lit "1700000001000_k3x9qa")
           (add (lit "Walk dog") ex_draw ex_state)) = ex_tasks.
Proof. apply (add_delete (lit "Walk dog") ex_draw ex_state). reflexivity. Defined.

(** X11: with no id shared, editing a task and then editing it back to
    its old text, a trimmed one that is not empty, gives the list back. *)
Theorem edit_undo (i s : jsstring) (st : TodoApp) (t : Task) :
  List.NoDup (List.map id (tasks st)) ->
  In t (tasks st) -> id t = i ->
  trim (text t) = text t -> text t <> [] ->
  tasks (edit i (text t) (edit i s st)) = tasks st.
Proof.
  intros N Ht Ei Htrim Hne.
  assert (falsy (trim (text t)) = false) as F
    by (rewrite Htrim; now apply falsy_cons).
  rewrite tasks_edit, F, tasks_edit.
  destruct (falsy (trim s)).
  - apply map_unchanged. intros u Hu.
    destruct (str_eqb (id u) i) eqn:E; [|reflexivity].
    apply str_eqb_eq in E.
    rewrite (same_id_same_task _ u t N Hu Ht) by congruence.
    rewrite Htrim. now destruct t.
  - rewrite List.map_map. apply map_unchanged. intros u Hu.
    destruct (str_eqb (id u) i) eqn:E; cbn [id]; rewrite E; [|reflexivity].
    apply str_eqb_eq in E. cbn [completed createdAt].
    rewrite (same_id_same_task _ u t N Hu Ht) by congruence.
    rewrite Htrim. now destruct t.
Qed.

Lemma edit_undo_witness :
  tasks (edit (lit "1") (lit "Buy milk")
           (edit (lit "1") (lit "Buy oat milk") ex_state)) = ex_tasks.
Proof.
  apply (edit_undo (lit "1") (lit "Buy oat milk") ex_state
           (mkTask (lit "1") (lit "Buy milk") false 1700000000000%Z)).
  - apply List.NoDup_cons; [intros [E|[]]; discriminate E|].
    apply List.NoDup_cons; [intros []|]. apply List.NoDup_nil.
  - left. reflexivity.
  - reflexivity.
  - reflexivity.
  - discriminate.
Defined.

Lemma find_some_task (i : jsstring) (l : list Task) (t : Task) :
  List.find (fun x => str_eqb (id x) i) l = Some t -> In t l /\ id t = i.
Proof.
  intros H. apply List.find_some in H as [Ht E].
  split; [exact Ht | now apply str_eqb_eq].
Qed.

(** X12: with no id shared and trimmed texts, opening the edit box of a
    task of the list and saving at once leaves the list as it is, and
    closes the edit box. *)
Theorem startEdit_saveEdit (i : jsstring) (st : TodoApp) :
  List.NoDup (List.map id (tasks st)) ->
  Forall (fun t => trim (text t) = text t) (tasks st) ->
  has_id i (tasks st) = true ->
  editingId (startEdit i st) = Some i
  /\ tasks (saveEdit (startEdit i st)) = tasks st
  /\ editingId (saveEdit (startEdit i st)) = None
  /\ editingText (saveEdit (startEdit i st)) = [].
Proof.
  intros N F Hi. unfold startEdit.
  destruct (find_has_id i (tasks st) Hi) as [t Ef]. rewrite Ef.
  apply find_some_task in Ef as [Ht Ei].
  split; [reflexivity|]. split; [|split].
  - pose proof (tasks_edit i (text t) st) as E. unfold edit in E.
    rewrite E. destruct (falsy (trim (text t))); [reflexivity|].
    apply map_unchanged. intros u Hu.
    destruct (str_eqb (id u) i) eqn:Eu; [|reflexivity].
    apply str_eqb_eq in Eu.
    rewrite (same_id_same_task _ u t N Hu Ht) by congruence.
    rewrite List.Forall_forall in F. rewrite (F t Ht). now destruct t.
  - unfold saveEdit. now destruct (falsy _).
  - unfold saveEdit. now destruct (falsy _).
Qed.

Lemma startEdit_saveEdit_witness :
  tasks (saveEdit (startEdit (lit "2") ex_state)) = ex_tasks.
Proof.
  apply (startEdit_saveEdit (lit "2") ex_state).
  - apply List.NoDup_cons; [intros [E|[]]; discriminate E|].
    apply List.NoDup_cons; [intros []|]. apply List.NoDup_nil.
  - repeat constructor.
  - reflexivity.
Defined.

Lemma filter_map_commute {A} (p : A -> bool) (g : A -> A) (l : list A) :
  (forall x, p (g x) = p x) ->
  List.filter p (List.map g l) = List.map g (List.filter p l).
Proof.
  intros H. induction l as [|x l IH]; simpl; [reflexivity|].
  rewrite H. destruct (p x); simpl; congruence.
Qed.

Lemma filter_commute {A} (p q : A -> bool) (l : list A) :
  List.filter p (List.filter q l) = List.filter q (List.filter p l).
Proof.
  rewrite !filter_filter. apply List.filter_ext. intros x. apply andb_comm.
Qed.

(** X13: the operations on different tasks do not depend on their order:
    two toggles commute, two deletes commute, a delete commutes with a
    toggle and with [clearCompleted]; and a delete after a toggle or an
    edit of the same task is the delete alone. *)
Theorem operations_commute (i j : jsstring) (st : TodoApp) :
  toggleTask i (toggleTask j st) = toggleTask j (toggleTask i st)
  /\ deleteTask i (deleteTask j st) = deleteTask j (deleteTask i st)
  /\ deleteTask i (toggleTask j st) = toggleTask j (deleteTask i st)
  /\ deleteTask i (clearCompleted st) = clearCompleted (deleteTask i st)
  /\ deleteTask i (toggleTask i st) = deleteTask i st
  /\ forall s, tasks (deleteTask i (edit i s st)) = tasks (deleteTask i st).
Proof.
  assert (forall s, tasks (deleteTask i (edit i s st)) = tasks (deleteTask i st))
    as Hedit.
  { intros s. unfold deleteTask. simpl. rewrite tasks_edit.
    destruct (falsy (trim s)); [reflexivity|].
    rewrite filter_map_commute.
    - apply map_unchanged. intros t Ht. apply filter_In in Ht as [_ Ht].
      apply negb_true_iff in Ht. now rewrite Ht.
    - intros t. destruct (str_eqb (id t) i) eqn:E; simpl; rewrite ?E;
        reflexivity. }
  split; [|split; [|split; [|split; [|split]]]]; [| | | | |exact Hedit];
    clear Hedit; destruct st as [l inp f q ei et];
    unfold toggleTask, deleteTask, clearCompleted, setTasks; simpl; f_equal.
  - rewrite !List.map_map. apply List.map_ext. intros t.
    destruct (str_eqb (id t) j) eqn:Ej, (str_eqb (id t) i) eqn:Ei; simpl;
      rewrite ?Ej, ?Ei; reflexivity.
  - apply filter_commute.
  - apply filter_map_commute. intros t. now destruct (str_eqb (id t) j).
  - apply filter_commute.
  - rewrite filter_map_commute.
    + apply map_unchanged. intros t Ht. apply filter_In in Ht as [_ Ht].
      apply negb_true_iff in Ht. now rewrite Ht.
    + intros t. destruct (str_eqb (id t) i) eqn:E; simpl; rewrite ?E;
        reflexivity.
Qed.

(** X14: when the tasks with id [i] are not completed, toggling [i] and
    then clearing the completed tasks leaves what deleting [i] and then
    clearing leaves. *)
Theorem toggle_clear_is_delete (i : jsstring) (st : TodoApp) :
  (forall t, In t (tasks st) -> id t = i -> completed t = false) ->
  tasks (clearCompleted (toggleTask i st))
  = tasks (clearCompleted (deleteTask i st)).
Proof.
  unfold clearCompleted, toggleTask, deleteTask. simpl.
  induction (tasks st) as [|t l IH]; intros H; simpl; [reflexivity|].
  assert (forall u, In u l -> id u = i -> completed u = false) as H'
    by (intros u Hu; apply H; now right).
  destruct (str_eqb (id t) i) eqn:E; simpl.
  - apply str_eqb_eq in E. rewrite (H t (or_introl eq_refl) E). simpl.
    now apply IH.
  - destruct (completed t); simpl; [|f_equal]; now apply IH.
Qed.

Lemma toggle_clear_is_delete_witness :
  tasks (clearCompleted (toggleTask (lit "1") ex_state)) = [].
Proof.
  rewrite (toggle_clear_is_delete (lit "1") ex_state); [reflexivity|].
  intros t [<-|[<-|[]]]; [reflexivity | discriminate].
Defined.

(* ================================================================== *)
(** * More on the filtered view *)
(* ================================================================== *)

(** X15: with the filter [all] and a blank query the view is the whole
    list, for a case mapping that maps the empty string to itself. *)
Theorem filtered_all_blank (toLowerCase : jsstring -> jsstring)
    (st : TodoApp) :
  toLowerCase [] = [] ->
  filter st = lit "all" -> blank (query st) = true ->
  filtered toLowerCase st = tasks st.
Proof.
  intros Hnil Hf Hq. unfold filtered. rewrite Hf.
  rewrite (filter_all (status_test (lit "all"))) by reflexivity.
  apply filter_all. intros t _. unfold query_test.
  apply trim_blank in Hq. rewrite Hq, Hnil. apply includes_empty.
Qed.

Lemma filtered_all_blank_witness :
  filtered toLowerCase_ascii (setQuery (lit "  ") ex_state) = ex_tasks.
Proof.
  apply (filtered_all_blank toLowerCase_ascii (setQuery (lit "  ") ex_state));
    reflexivity.
Defined.

Lemma filter_split_length {A} (p : A -> bool) (l : list A) :
  length l
  = (length (List.filter (fun x => negb (p x)) l)
     + length (List.filter p l))%nat.
Proof.
  induction l as [|x l IH]; simpl; [reflexivity|].
  destruct (p x); simpl; lia.
Qed.

(** X16: whatever the query, the rows of the view under [all] are the
    rows under [active] and the rows under [done]: as many, each in one of
    the two and none in both; and a filter that is none of the three shows
    what [done] shows. *)
Theorem filtered_by_status (toLowerCase : jsstring -> jsstring)
    (st : TodoApp) :
  length (filtered toLowerCase (setFilter (lit "all") st))
  = (length (filtered toLowerCase (setFilter (lit "active") st))
     + length (filtered toLowerCase (setFilter (lit "done") st)))%nat
  /\ (forall t,
        In t (filtered toLowerCase (setFilter (lit "all") st))
        <-> In t (filtered toLowerCase (setFilter (lit "active") st))
            \/ In t (filtered toLowerCase (setFilter (lit "done") st)))
  /\ (forall t,
        In t (filtered toLowerCase (setFilter (lit "active") st)) ->
        In t (filtered toLowerCase (setFilter (lit "done") st)) -> False)
  /\ (forall f,
        f <> lit "all" -> f <> lit "active" ->
        filtered toLowerCase (setFilter f st)
        = filtered toLowerCase (setFilter (lit "done") st)).
Proof.
  rewrite !filtered_filter. simpl.
  split; [|split; [|split]].
  - induction (tasks st) as [|t l IH]; [reflexivity|].
    cbn [List.filter].
    change (status_test (lit "all") t) with true.
    change (status_test (lit "active") t) with (negb (completed t)).
    change (status_test (lit "done") t) with (completed t).
    destruct (query_test toLowerCase (query st) t), (completed t); simpl in *;
      lia.
  - intros t. rewrite !filter_In. unfold status_test. simpl.
    destruct (completed t), (query_test toLowerCase (query st) t); simpl;
      intuition congruence.
  - intros t. rewrite !filter_In. unfold status_test. simpl.
    destruct (completed t); simpl; intuition congruence.
  - intros f H1 H2. rewrite !filtered_filter. simpl.
    apply List.filter_ext. intros t. unfold status_test.
    apply str_eqb_neq in H1, H2. now rewrite H1, H2.
Qed.

(** X17: the view of the view is the view; and the view after a delete is
    the view without the rows of the deleted id. *)
Theorem filtered_again_and_delete (toLowerCase : jsstring -> jsstring)
    (st : TodoApp) :
  filtered toLowerCase (setTasks (filtered toLowerCase st) st)
  = filtered toLowerCase st
  /\ forall i,
       filtered toLowerCase (deleteTask i st)
       = List.filter (fun t => negb (str_eqb (id t) i))
           (filtered toLowerCase st).
Proof.
  rewrite !filtered_filter. simpl. split.
  - apply filter_idem.
  - intros i. rewrite filtered_filter. simpl. apply filter_commute.
Qed.

(** X18: under the filter [all], a toggle hides no row and shows no new
    one: the view keeps its ids, texts and creation times, in order. *)
Theorem filtered_all_toggle (toLowerCase : jsstring -> jsstring)
    (i : jsstring) (st : TodoApp) :
  filter st = lit "all" ->
  List.map (fun t => (id t, text t, createdAt t))
    (filtered toLowerCase (toggleTask i st))
  = List.map (fun t => (id t, text t, createdAt t)) (filtered toLowerCase st).
Proof.
  intros Hf. rewrite !filtered_filter. simpl. rewrite Hf.
  rewrite filter_map_commute.
  - rewrite List.map_map. apply List.map_ext. intros t.
    now destruct (str_eqb (id t) i).
  - intros t. unfold status_test, query_test. simpl.
    now destruct (str_eqb (id t) i).
Qed.

Lemma filtered_all_toggle_witness :
  List.map (fun t => (id t, text t, createdAt t))
    (filtered toLowerCase_ascii (toggleTask (lit "1") ex_state))
  = List.map (fun t => (id t, text t, createdAt t)) ex_tasks.
Proof.
  apply (filtered_all_toggle toLowerCase_ascii (lit "1") ex_state). reflexivity.
Defined.

(* ================================================================== *)
(** * The session: the component and its storage *)
(* ================================================================== *)

Lemma persist_cases (l : list Task) (st : Storage) :
  persist l st =
  match setItem storageKey (JSON_stringify (json_of_tasks l)) st with
  | Normal st' => Normal st'
  | Throw => Normal st
  end.
Proof. reflexivity. Qed.

(** X19: the effect of the hook never throws; it leaves the other keys,
    the access and the quota of the storage as they are; after a write
    that fails the storage is the one before, and after one that succeeds
    the key holds the text of the list. *)
Theorem persist_contained (l : list Task) (st : Storage) :
  exists st',
    persist l st = Normal st'
    /\ accessible st' = accessible st
    /\ quota st' = quota st
    /\ (forall k, k <> storageKey -> getItem k st' = getItem k st)
    /\ (write_ok l st = false -> st' = st)
    /\ (write_ok l st = true ->
        getItem storageKey st'
        = Normal (Some (JSON_stringify (json_of_tasks l)))).
Proof.
  rewrite persist_cases. unfold write_ok.
  destruct (setItem storageKey (JSON_stringify (json_of_tasks l)) st)
    as [st'|] eqn:W.
  - exists st'. pose proof (getItem_setItem _ _ _ _ W) as G.
    unfold setItem in W. destruct (accessible st) eqn:A; [|discriminate W].
    destruct (storage_size _ <=? quota st)%nat; [|discriminate W].
    injection W as <-. simpl.
    split; [reflexivity|]. split; [reflexivity|]. split; [reflexivity|].
    split; [|split; [discriminate | intros _; exact G]].
    intros k Hk. unfold getItem. simpl. rewrite A.
    now rewrite lookup_insert_ne by congruence.
  - exists st. split; [reflexivity|]. split; [reflexivity|].
    split; [reflexivity|]. split; [reflexivity|].
    split; [reflexivity | discriminate].
Qed.

Lemma setItem_again (key val : jsstring) (st st' : Storage) :
  setItem key val st = Normal st' -> setItem key val st' = Normal st'.
Proof.
  unfold setItem. destruct (accessible st); [|discriminate].
  destruct (storage_size (<[key:=val]> (items st)) <=? quota st)%nat eqn:Q;
    [|discriminate].
  intros [= <-]. simpl. rewrite insert_insert_eq, Q. reflexivity.
Qed.

(** X20: running the effect again for the same list changes nothing
    more. *)
Theorem persist_idempotent (l : list Task) (st st' : Storage) :
  persist l st = Normal st' -> persist l st' = Normal st'.
Proof.
  rewrite !persist_cases.
  destruct (setItem storageKey (JSON_stringify (json_of_tasks l)) st)
    as [st1|] eqn:W; intros [= <-].
  - now rewrite (setItem_again _ _ _ _ W).
  - now rewrite W.
Qed.

Lemma persist_idempotent_witness :
  persist ex_tasks ex_storage_written = Normal ex_storage_written.
Proof.
  apply (persist_idempotent ex_tasks ex_storage ex_storage_written).
  vm_compute. reflexivity.
Defined.

Lemma in_sync_hydrates (w : World) :
  in_sync w -> hydrates (storage w) (tasks (todo w)).
Proof.
  unfold in_sync, hydrates, load. intros W.
  rewrite useLocalStorage_init_cases, (getItem_setItem _ _ _ _ W).
  now rewrite JSON_stringify_tasks_truthy, JSON_parse_stringify_tasks.
Qed.

Lemma after_effect_write (l : list Task) (st : Storage) :
  write_ok l st = true ->
  setItem storageKey (JSON_stringify (json_of_tasks l)) (after_effect l st)
  = Normal (after_effect l st).
Proof.
  unfold write_ok, after_effect. rewrite persist_cases.
  destruct (setItem storageKey (JSON_stringify (json_of_tasks l)) st)
    as [st'|] eqn:W; [|discriminate].
  intros _. now apply (setItem_again _ _ st).
Qed.

Lemma after_effect_in_sync (l : list Task) (st : Storage) :
  setItem storageKey (JSON_stringify (json_of_tasks l)) st = Normal st ->
  after_effect l st = st.
Proof. unfold after_effect. rewrite persist_cases. now intros ->. Qed.

(** An event whose handler does not call [setTasks] leaves the list. *)
Lemma tasks_kept (e : Event) (st : TodoApp) :
  calls_setTasks e st = false -> tasks (handle e st) = tasks st.
Proof.
  destruct e as [s|d|i|i| |i|s| | |f|q]; simpl; try reflexivity;
    try discriminate.
  - intros H. apply negb_false_iff in H. unfold addTask. now rewrite H.
  - intros _. unfold startEdit. now destruct (List.find _ _).
  - intros H. apply negb_false_iff in H. unfold saveEdit. now rewrite H.
Qed.

Lemma in_sync_dispatch (e : Event) (w : World) :
  writes_ok [e] w = true -> in_sync w -> in_sync (dispatch e w).
Proof.
  unfold in_sync, dispatch. simpl. rewrite andb_true_r.
  destruct (calls_setTasks e (todo w)) eqn:C; simpl.
  - intros W _. now apply after_effect_write.
  - intros _ S. now rewrite (tasks_kept e (todo w) C).
Qed.

Lemma in_sync_session (evs : list Event) (w : World) :
  writes_ok evs w = true -> in_sync w -> in_sync (session evs w).
Proof.
  revert w. induction evs as [|e evs IH]; intros w W S; [exact S|].
  simpl in W. apply andb_true_iff in W as [We W].
  simpl. apply IH; [exact W|].
  apply in_sync_dispatch; [|exact S]. simpl. now rewrite We.
Qed.

(** X21: in a session where the write of the first render and the writes
    of the events complete normally, the storage holds the list of the
    component at the end: loading it gives that list, and a first render
    from it starts with that list and writes nothing new. *)
Theorem session_in_sync (l : list Task) (st : Storage) (evs : list Event) :
  write_ok l st = true ->
  writes_ok evs (mount l st) = true ->
  let w := session evs (mount l st) in
  hydrates (storage w) (tasks (todo w))
  /\ mount (tasks (todo w)) (storage w)
     = mkWorld (initialState (tasks (todo w))) (storage w).
Proof.
  intros W0 W w.
  assert (in_sync w) as S.
  { apply in_sync_session; [exact W|]. unfold in_sync, mount. simpl.
    now apply after_effect_write. }
  split; [now apply in_sync_hydrates|].
  unfold mount. now rewrite after_effect_in_sync.
Qed.

Lemma session_in_sync_witness :
  hydrates (storage (session ex_events (mount [] ex_storage)))
    (tasks (todo (session ex_events (mount [] ex_storage)))).
Proof.
  apply (session_in_sync [] ex_storage ex_events); vm_compute; reflexivity.
Defined.



(* ================================================================== *)
(** * The keyboard *)
(* ================================================================== *)

(** X23: opening the edit box of a task, typing anything and pressing
    Escape gives back the state there was, when no edit box was open; and
    a key that is neither Enter nor Escape does nothing in the edit box. *)
Theorem edit_escape (i s : jsstring) (st : TodoApp) :
  editingId st = None -> editingText st = [] ->
  editKeyDown (lit "Escape") (setEditingText s (startEdit i st)) = st
  /\ forall key st',
       key <> lit "Enter" -> key <> lit "Escape" -> editKeyDown key st' = st'.
Proof.
  intros Hi Ht. split.
  - unfold editKeyDown, startEdit. simpl.
    destruct st as [l inp f q ei et]. simpl in *. subst ei et.
    now destruct (List.find _ l).
  - intros key st' H1 H2. unfold editKeyDown.
    apply str_eqb_neq in H1, H2. now rewrite H1, H2.
Qed.

Lemma edit_escape_witness :
  editKeyDown (lit "Escape")
    (setEditingText (lit "Buy oat") (startEdit (lit "1") ex_state))
  = ex_state.
Proof.
  apply (edit_escape (lit "1") (lit "Buy oat") ex_state); reflexivity.
Defined.

(** X24: Enter in the new-task box adds at most once: a second Enter right
    after the first, whatever the generator draws, changes nothing; and
    any other key changes nothing at all. *)
Theorem enter_twice (d1 d2 : Draw) (st : TodoApp) :
  handleKeyDown (lit "Enter") d2 (handleKeyDown (lit "Enter") d1 st)
  = handleKeyDown (lit "Enter") d1 st
  /\ forall key d, key <> lit "Enter" -> handleKeyDown key d st = st.
Proof.
  split.
  - unfold handleKeyDown. simpl.
    assert (forall d x, falsy (trim (input x)) = true -> addTask d x = x) as B
      by (intros d x E; unfold addTask; now rewrite E).
    destruct (falsy (trim (input st))) eqn:E.
    + now rewrite !(B _ st E).
    + apply B. unfold addTask. rewrite E. reflexivity.
  - intros key d H. unfold handleKeyDown. apply str_eqb_neq in H. now rewrite H.
Qed.
